(** * Surface rendering, caching and placeholder expansion of [Component]

    A shallow embedding of [src/component/Component.js] (metal.js): the
    cache evaluator, the surface id convention, the placeholder expander,
    the surface renderer and the render / decorate / attach / detach
    lifecycle, with the properties the specification states about them.

    Conventions of the embedding.
    - JavaScript strings are [string]; a character code is the code of the
      [ascii] character.
    - The component is a record of its fields ([state]); every method is a
      function in the monad [M], which threads the state and stops at a
      thrown error, keeping the state reached at the throw.
    - Collaborators that live outside [Component.js] (the DOM, the events
      collector, the attribute machinery, nested component instances) are
      not executed: each call to them is appended to [trace], and what the
      component reads back from them is supplied by the environment [Env].
    - The hooks a subclass implements ([decorateInternal], [attached],
      [detached], the [sync] methods) are recorded as calls; the content
      hooks [getElementContent] and [getSurfaceContent] are functions of
      the environment.
    - Recursion through surface contents need not terminate (a surface may
      hold its own placeholder); recursive calls consume [fuel]. *)

From Stdlib Require Import ZArith String Ascii List Lia DecimalString DecimalNat.
From stdpp Require Import gmap strings.

Import ListNotations.
Local Open Scope string_scope.
Local Open Scope Z_scope.

(** ** Values *)

(** What a content provider may return, or a caller may pass as content:
    nothing, a string of markup, or an element (known by its [id]). *)
Inductive jsval :=
| Undefined
| Null
| Str (s : string)
| Elem (eid : string).


(** [core.isDefAndNotNull]. *)
Definition isDefAndNotNull (v : jsval) : bool :=
  match v with Undefined | Null => false | _ => true end.

(** JavaScript truthiness, as used by [a || b] and [if (a)]. *)
Definition truthy (v : jsval) : bool :=
  match v with
  | Undefined | Null => false
  | Str s => negb (String.eqb s EmptyString)
  | Elem _ => true
  end.

(** Truthiness of an optional string property of a configuration object. *)
Definition truthyS (o : option string) : bool :=
  match o with
  | Some s => negb (String.eqb s EmptyString)
  | None => false
  end.

(** String coercion, as done by [+] and by [String.prototype.replace] on
    the value returned by the replacement function. *)
Definition toString (v : jsval) : string :=
  match v with
  | Undefined => "undefined"
  | Null => "null"
  | Str s => s
  | Elem _ => "[object HTMLElement]"
  end.

(** [a || b]. *)
Definition jsor (a b : jsval) : jsval := if truthy a then a else b.

(** ** Cache evaluator *)

(** [Component.Cache]. *)
Module Cache.
Definition NOT_CACHEABLE : Z := -1.
Definition NOT_INITIALIZED : Z := -2.
End Cache.

(** Modelled from the spec: [string.hashCode] lives in [string/string.js],
    which is not part of the sources at hand. The specification describes it
    as the polynomial hash [h = 31*h + charCode] truncated to the machine
    integer width, here 32 bits. *)
Definition hashCode (s : string) : Z :=
  fold_left (fun h c => (31 * h + Z.of_nat (nat_of_ascii c)) mod 2 ^ 32)
            (list_ascii_of_string s) 0.

(** [compareCacheStates_]. *)
Definition compareCacheStates_ (currentCacheState previousCacheState : Z) : bool :=
  negb (currentCacheState =? Cache.NOT_INITIALIZED) &&
  negb (currentCacheState =? Cache.NOT_CACHEABLE) &&
  (currentCacheState =? previousCacheState).

(** ** The placeholder token: [Component.SURFACE_REGEX]

    [/\%\%\%\%~s(?:-([^~:]+))?~\%\%\%\%/g] *)

Definition TOKEN_OPEN : string := "%%%%~s".
Definition TOKEN_CLOSE : string := "~%%%%".

(** [strip_prefix p s] is the rest of [s] after its prefix [p]. *)
Fixpoint strip_prefix (p s : string) : option string :=
  match p with
  | EmptyString => Some s
  | String a p' =>
      match s with
      | String b s' => if Ascii.eqb a b then strip_prefix p' s' else None
      | EmptyString => None
      end
  end.

(** The character class [[^~:]]. *)
Definition idChar (c : ascii) : bool :=
  negb (Ascii.eqb c "~") && negb (Ascii.eqb c ":").

(** The greedy run [[^~:]*] at the head of [s], and what follows it. *)
Fixpoint spanId (s : string) : string * string :=
  match s with
  | EmptyString => (EmptyString, EmptyString)
  | String c s' =>
      if idChar c then let (x, r) := spanId s' in (String c x, r)
      else (EmptyString, s)
  end.

(** The optional group taken: [-([^~:]+)] then the closing marker. The run
    is greedy and cannot give back a character, since the character after it
    has to be [~]. *)
Definition matchWithId (r : string) : option (option string * nat) :=
  match r with
  | String "-" r1 =>
      let (x, r2) := spanId r1 in
      match x, strip_prefix TOKEN_CLOSE r2 with
      | String _ _, Some _ => Some (Some x, (6 + 1 + String.length x + 5)%nat)
      | _, _ => None
      end
  | _ => None
  end.

(** The optional group skipped: the closing marker at once. *)
Definition matchAnonymous (r : string) : option (option string * nat) :=
  match strip_prefix TOKEN_CLOSE r with
  | Some _ => Some (None, 11%nat)
  | None => None
  end.

(** A match of the regular expression at the head of [s]: the captured id
    ([None] when the group did not take part) and the length of the match. *)
Definition matchHere (s : string) : option (option string * nat) :=
  match strip_prefix TOKEN_OPEN s with
  | Some r =>
      match matchWithId r with
      | Some m => Some m
      | None => matchAnonymous r
      end
  | None => None
  end.

(** A scanned string: plain characters and tokens, in order. *)
Inductive segment :=
| Lit (c : ascii)
| Tok (raw : string) (id : option string).

(** The global scan: matches are found left to right and do not overlap;
    [skip] counts the characters still covered by the last match. *)
Fixpoint scanFrom (skip : nat) (s : string) : list segment :=
  match s with
  | EmptyString => []
  | String c s' =>
      match skip with
      | S k => scanFrom k s'
      | O =>
          match matchHere s with
          | Some (id, len) => Tok (substring 0 len s) id :: scanFrom (len - 1) s'
          | None => Lit c :: scanFrom 0 s'
          end
      end
  end.

Definition scan (s : string) : list segment := scanFrom 0 s.

Definition isTok (g : segment) : bool :=
  match g with Tok _ _ => true | Lit _ => false end.

(** The ids captured by the matches found in [s], in order. *)
Definition tokens (s : string) : list (option string) :=
  flat_map (fun g => match g with Tok _ id => [id] | Lit _ => [] end) (scan s).

(** The regular expression, stated declaratively: the strings it matches
    and the id it captures. *)
Inductive TokenMatch : string -> option string -> Prop :=
| TokenAnonymous : TokenMatch (TOKEN_OPEN ++ TOKEN_CLOSE) None
| TokenWithId x :
    x <> EmptyString ->
    forallb idChar (list_ascii_of_string x) = true ->
    TokenMatch (TOKEN_OPEN ++ "-" ++ x ++ TOKEN_CLOSE) (Some x).

(** [s] contains a match of [SURFACE_REGEX]. *)
Definition containsToken (s : string) : Prop :=
  exists pre m id post, s = pre ++ m ++ post /\ TokenMatch m id.

(** ** Data model *)

(** A reference to a DOM element held in a surface record. *)
Inductive elemref :=
| ElById (id : string)         (* found in the document, or created, under this id *)
| ElOfContent (c : jsval)      (* the outer element of rendered content *)
| ElOfComponent (id : string). (* the element of the nested component *)

(** A surface record; also the shape of a surface configuration object. *)
Record surface := mkSurface {
  cacheState : Z;
  surfaceElementId : option string;
  componentName : option string;
  componentData : jsval;
  renderAttrs : list string;
  handled : bool;
  element : option elemref
}.

(** The configuration object [{}]. *)
Definition emptyConfig : surface :=
  mkSurface 0 None None Undefined [] false None.

Definition set_cacheState (v : Z) (s : surface) : surface :=
  mkSurface v (surfaceElementId s) (componentName s) (componentData s)
            (renderAttrs s) (handled s) (element s).

Definition set_handled (b : bool) (s : surface) : surface :=
  mkSurface (cacheState s) (surfaceElementId s) (componentName s) (componentData s)
            (renderAttrs s) b (element s).

Definition set_element (e : option elemref) (s : surface) : surface :=
  mkSurface (cacheState s) (surfaceElementId s) (componentName s) (componentData s)
            (renderAttrs s) (handled s) e.

(** An entry of [collectedSurfaces_]. *)
Record collected := mkCollected {
  c_cacheContent : jsval;
  c_content : jsval;
  c_surfaceElementId : string
}.

(** Calls made to the collaborators, in the order they are made. *)
Inductive event :=
| AttachListeners (content : jsval) (scope : option string)
| DetachAllListeners
| DetachUnusedListeners
| AddMissingAttr (attr : string)
| CreateComponent (name id : string) (data : jsval)
| UpdateComponent (id : string) (data : jsval)
| SubExpand (id : string)
| SubAppend (id : string) (content : jsval)
| SubDecorateAsSub (id : string)
| SubRenderAsSub (id : string)
| SubRender (id : string)
| DomReplace (old new : elemref)
| DomRemoveChildren (el : elemref)
| DomAppend (el : elemref) (content : jsval)
| DomSwapForComponent (id : string)
| RenderContent (content : jsval)
| RenderElement
| RemoveElement
| Hook (name : string)
| SyncAttrs.

(** What the component is given: its id, its hooks and static properties,
    and what it reads back from its collaborators. The DOM answers depend on
    everything done so far, that is on the trace. *)
Record Env := mkEnv {
  (* the [id] attribute (write once) *)
  env_id : string;
  (* [SURFACE_TAG_NAME_MERGED] *)
  env_surfaceTag : string;
  (* [getElementContent()], implemented by subclasses *)
  env_getElementContent : jsval;
  (* [getSurfaceContent(surfaceId, surfaceElementId)], implemented by subclasses *)
  env_getSurfaceContent : string -> string -> jsval;
  (* [features.checkAttrOrderChange()] *)
  env_checkAttrOrderChange : bool;
  (* the html the browser gives back for an html string *)
  env_browserFormat : string -> string;
  (* [html.compress] *)
  env_compress : string -> string;
  (* [element.outerHTML] *)
  env_outerHTML : list event -> elemref -> string;
  (* [element.parentNode] is set *)
  env_hasParent : list event -> elemref -> bool;
  (* [dom.isEmpty] of a nested component's element *)
  env_isEmpty : list event -> string -> bool;
  (* a component type of this name is registered *)
  env_registered : string -> bool;
  (* [ELEMENT_TAG_NAME_MERGED] of the nested component with this id *)
  env_componentTag : string -> string;
  (* [getElementExtendedContent()] of the nested component with this id *)
  env_componentContent : string -> jsval
}.

(** The component instance, with the two process-wide registries. *)
Record state := mkState {
  decorating_ : bool;
  inDocument : bool;
  wasRendered : bool;
  elementContent_ : jsval;
  collectedSurfaces_ : list collected;
  generatedIdCount_ : gmap string nat;
  (* [surfaceIds_], keys in insertion order *)
  surfaceIds_ : list string;
  surfacesRenderAttrs_ : gmap string (list string);
  (* [Component.surfacesCollector] *)
  surfaces : gmap string surface;
  (* [ComponentCollector.components]: the nested instances, by id, each
     with its own [wasRendered] flag *)
  components : gmap string bool;
  trace : list event
}.

Definition set_decorating (b : bool) (st : state) : state :=
  mkState b (inDocument st) (wasRendered st) (elementContent_ st)
          (collectedSurfaces_ st) (generatedIdCount_ st) (surfaceIds_ st)
          (surfacesRenderAttrs_ st) (surfaces st) (components st) (trace st).

Definition set_inDocument (b : bool) (st : state) : state :=
  mkState (decorating_ st) b (wasRendered st) (elementContent_ st)
          (collectedSurfaces_ st) (generatedIdCount_ st) (surfaceIds_ st)
          (surfacesRenderAttrs_ st) (surfaces st) (components st) (trace st).

Definition set_wasRendered (b : bool) (st : state) : state :=
  mkState (decorating_ st) (inDocument st) b (elementContent_ st)
          (collectedSurfaces_ st) (generatedIdCount_ st) (surfaceIds_ st)
          (surfacesRenderAttrs_ st) (surfaces st) (components st) (trace st).

Definition set_elementContent (v : jsval) (st : state) : state :=
  mkState (decorating_ st) (inDocument st) (wasRendered st) v
          (collectedSurfaces_ st) (generatedIdCount_ st) (surfaceIds_ st)
          (surfacesRenderAttrs_ st) (surfaces st) (components st) (trace st).

Definition set_collected (l : list collected) (st : state) : state :=
  mkState (decorating_ st) (inDocument st) (wasRendered st) (elementContent_ st)
          l (generatedIdCount_ st) (surfaceIds_ st)
          (surfacesRenderAttrs_ st) (surfaces st) (components st) (trace st).

Definition set_generatedIdCount (m : gmap string nat) (st : state) : state :=
  mkState (decorating_ st) (inDocument st) (wasRendered st) (elementContent_ st)
          (collectedSurfaces_ st) m (surfaceIds_ st)
          (surfacesRenderAttrs_ st) (surfaces st) (components st) (trace st).

Definition set_surfaceIds (l : list string) (st : state) : state :=
  mkState (decorating_ st) (inDocument st) (wasRendered st) (elementContent_ st)
          (collectedSurfaces_ st) (generatedIdCount_ st) l
          (surfacesRenderAttrs_ st) (surfaces st) (components st) (trace st).

Definition set_surfacesRenderAttrs (m : gmap string (list string)) (st : state) : state :=
  mkState (decorating_ st) (inDocument st) (wasRendered st) (elementContent_ st)
          (collectedSurfaces_ st) (generatedIdCount_ st) (surfaceIds_ st)
          m (surfaces st) (components st) (trace st).

Definition set_surfaces (m : gmap string surface) (st : state) : state :=
  mkState (decorating_ st) (inDocument st) (wasRendered st) (elementContent_ st)
          (collectedSurfaces_ st) (generatedIdCount_ st) (surfaceIds_ st)
          (surfacesRenderAttrs_ st) m (components st) (trace st).

Definition set_components (m : gmap string bool) (st : state) : state :=
  mkState (decorating_ st) (inDocument st) (wasRendered st) (elementContent_ st)
          (collectedSurfaces_ st) (generatedIdCount_ st) (surfaceIds_ st)
          (surfacesRenderAttrs_ st) (surfaces st) m (trace st).

Definition set_trace (l : list event) (st : state) : state :=
  mkState (decorating_ st) (inDocument st) (wasRendered st) (elementContent_ st)
          (collectedSurfaces_ st) (generatedIdCount_ st) (surfaceIds_ st)
          (surfacesRenderAttrs_ st) (surfaces st) (components st) l.

(** ** The monad of methods *)

(** [Component.Error], and the errors of the language and of the
    component registry. *)
Inductive error :=
| ALREADY_RENDERED       (* 'Component already rendered' *)
| TypeError              (* a property read on null or undefined, a call of a missing method *)
| UnknownComponent.      (* no component type registered under the name *)

Inductive result (A : Type) :=
| Ok (a : A) (st : state)
| Throw (e : error) (st : state)
| OutOfFuel.

Arguments Ok {A} a st.
Arguments Throw {A} e st.
Arguments OutOfFuel {A}.

Definition M (A : Type) : Type := state -> result A.

Definition ret {A} (a : A) : M A := fun st => Ok a st.

Definition bind {A B} (m : M A) (k : A -> M B) : M B :=
  fun st =>
    match m st with
    | Ok a st' => k a st'
    | Throw e st' => Throw e st'
    | OutOfFuel => OutOfFuel
    end.

Definition throw {A} (e : error) : M A := fun st => Throw e st.
Definition outOfFuel {A} : M A := fun _ => OutOfFuel.
Definition get : M state := fun st => Ok st st.
Definition modify (f : state -> state) : M unit := fun st => Ok tt (f st).

Notation "x <- m ;; k" := (bind m (fun x => k))
  (at level 100, m at next level, right associativity).
Notation "m ;;; k" := (bind m (fun _ => k))
  (at level 100, right associativity).

(** A call to a collaborator. *)
Definition emit (e : event) : M unit :=
  modify (fun st => set_trace (trace st ++ [e]) st).

(** [when c m]: [if (c) { m }]. *)
Definition when (c : bool) (m : M unit) : M unit :=
  if c then m else ret tt.

(** [for] over a list, in order. *)
Fixpoint forEach {A} (f : A -> M unit) (l : list A) : M unit :=
  match l with
  | [] => ret tt
  | a :: l' => f a ;;; forEach f l'
  end.

(** The double quote character, as a string. *)
Definition DQUOTE : string := String (ascii_of_nat 34) EmptyString.

(** The decimal digits of a number, as [+] prints it. *)
Definition decimal (n : nat) : string := NilEmpty.string_of_uint (Nat.to_uint n).

(** The value of a string property when it is truthy. *)
Definition whenTruthy (o : option string) : option string :=
  match o with
  | Some s => if String.eqb s EmptyString then None else Some s
  | None => None
  end.

(** ** The component *)

Section Component.

Variable E : Env.

(** *** Surface ids *)

(** [hasComponentPrefix_]. *)
Definition hasComponentPrefix_ (surfaceId : string) : bool :=
  String.eqb (substring 0 (String.length (env_id E) + 1) surfaceId)
             (env_id E ++ "-").

(** [prefixSurfaceId_]. *)
Definition prefixSurfaceId_ (surfaceId : string) : string :=
  env_id E ++ "-" ++ surfaceId.

(** [getSurfaceElementId_]; a missing [opt_surface] stands for [{}]. *)
Definition getSurfaceElementId_ (surfaceId : string) (opt_surface : option surface) : string :=
  let surface := match opt_surface with Some s => s | None => emptyConfig end in
  match whenTruthy (surfaceElementId surface) with
  | Some explicit => explicit
  | None =>
      if truthyS (componentName surface) || hasComponentPrefix_ surfaceId
      then surfaceId
      else prefixSurfaceId_ surfaceId
  end.

(** [getSurfaceId_]. *)
Definition getSurfaceId_ (surfaceElementId : string) (surface : surface) : string :=
  if truthyS (componentName surface) || negb (hasComponentPrefix_ surfaceElementId)
  then surfaceElementId
  else
    let n := (String.length (env_id E) + 1)%nat in
    substring n (String.length surfaceElementId - n) surfaceElementId.

(** *** Surface registry

    Modelled from the spec: [SurfaceCollector] lives in
    [component/SurfaceCollector.js], which is not part of the sources at
    hand. By the specification its [addSurface] inserts or overwrites the
    record under the id, and [getSurface] gives the record or nothing. *)

Definition collector_addSurface (surfaceElementId : string) (config : surface) : M unit :=
  modify (fun st => set_surfaces (<[surfaceElementId := config]> (surfaces st)) st).

Definition collector_getSurface (st : state) (surfaceElementId : string) : option surface :=
  surfaces st !! surfaceElementId.

(** [getSurface]: the record, with the key it is stored under. The record
    is a shared object; the key stands for the reference to it. *)
Definition getSurface (st : state) (surfaceId : string) : option (string * surface) :=
  let k := getSurfaceElementId_ surfaceId None in
  match collector_getSurface st k with
  | Some s => Some (k, s)
  | None =>
      match collector_getSurface st surfaceId with
      | Some s => Some (surfaceId, s)
      | None => None
      end
  end.

(** [getSurface(id)] followed by a property access: a [TypeError] when
    there is no such surface. *)
Definition theSurface (surfaceId : string) : M (string * surface) :=
  fun st =>
    match getSurface st surfaceId with
    | Some ks => Ok ks st
    | None => Throw TypeError st
    end.

(** A property read through a reference to a record obtained earlier. *)
Definition readSurface (k : string) : M surface :=
  fun st =>
    match surfaces st !! k with
    | Some s => Ok s st
    | None => Throw TypeError st
    end.

(** A property write through a reference to a record. *)
Definition writeSurface (k : string) (f : surface -> surface) : M unit :=
  modify (fun st => set_surfaces (alter f k (surfaces st)) st).

(** *** Cache *)

(** [computeSurfaceCacheState_]. *)
Definition computeSurfaceCacheState_ (value : jsval) : Z :=
  match value with
  | Str s =>
      hashCode (if env_checkAttrOrderChange E then env_browserFormat E s else s)
  | _ => Cache.NOT_CACHEABLE
  end.

(** [cacheSurfaceContent]. *)
Definition cacheSurfaceContent (surfaceElementId : string) (content : jsval) : M unit :=
  let cacheState := computeSurfaceCacheState_ content in
  ks <- theSurface surfaceElementId ;;
  writeSurface (fst ks) (set_cacheState cacheState).

(** *** Registration *)

(** [cacheSurfaceRenderAttrs_]. *)
Definition cacheSurfaceRenderAttrs_ (surfaceElementId : string) : M unit :=
  ks <- theSurface surfaceElementId ;;
  forEach
    (fun attr =>
       st <- get ;;
       (match surfacesRenderAttrs_ st !! attr with
        | Some _ => ret tt
        | None =>
            modify (fun st => set_surfacesRenderAttrs
                                (<[attr := []]> (surfacesRenderAttrs_ st)) st) ;;;
            emit (AddMissingAttr attr)
        end) ;;;
       modify (fun st =>
                 set_surfacesRenderAttrs
                   (alter (fun ids => if existsb (String.eqb surfaceElementId) ids
                                      then ids else (ids ++ [surfaceElementId])%list)
                          attr (surfacesRenderAttrs_ st)) st))
    (renderAttrs (snd ks)).

(** [createSubComponent_].

    Modelled from the spec: [ComponentCollector] lives in
    [component/ComponentCollector.js], which is not part of the sources at
    hand. By the specification [createComponent] constructs and registers an
    instance of the named type, and a name that is not registered is a fatal
    construction error. *)
Definition createSubComponent_ (componentName componentId : string) : M unit :=
  ks <- theSurface componentId ;;
  if env_registered E componentName then
    emit (CreateComponent componentName componentId (componentData (snd ks))) ;;;
    modify (fun st => set_components (<[componentId := false]> (components st)) st)
  else throw UnknownComponent.

(** [addSurface]; the component configuration [opt_config] only gives
    initial values to the attributes added, which are not modelled. *)
Definition addSurface (surfaceId : string) (opt_surfaceConfig : option surface) : M unit :=
  let config := match opt_surfaceConfig with Some c => c | None => emptyConfig end in
  let config := set_cacheState Cache.NOT_INITIALIZED config in
  let surfaceElementId := getSurfaceElementId_ surfaceId (Some config) in
  modify (fun st =>
            if existsb (String.eqb surfaceElementId) (surfaceIds_ st) then st
            else set_surfaceIds (surfaceIds_ st ++ [surfaceElementId])%list st) ;;;
  collector_addSurface surfaceElementId config ;;;
  (match whenTruthy (componentName config) with
   | Some name => createSubComponent_ name surfaceElementId
   | None => ret tt
   end) ;;;
  cacheSurfaceRenderAttrs_ surfaceElementId.

(** [generateSurfaceElementId_]. *)
Definition generateSurfaceElementId_ (opt_parentSurfaceElementId : option string) : M string :=
  let parentElementId :=
    match whenTruthy opt_parentSurfaceElementId with
    | Some p => p
    | None => env_id E
    end in
  st <- get ;;
  let n := (match generatedIdCount_ st !! parentElementId with
            | Some c => c
            | None => O
            end + 1)%nat in
  modify (fun st => set_generatedIdCount
                      (<[parentElementId := n]> (generatedIdCount_ st)) st) ;;;
  ret (parentElementId ++ "-s" ++ decimal n).

(** [createPlaceholderSurface_]. *)
Definition createPlaceholderSurface_ (opt_surfaceElementId opt_parentSurfaceElementId : option string)
  : M string :=
  surfaceElementId <-
    match opt_surfaceElementId with
    | Some i => ret i
    | None => generateSurfaceElementId_ opt_parentSurfaceElementId
    end ;;
  st <- get ;;
  match getSurface st surfaceElementId with
  | Some _ => ret tt
  | None =>
      addSurface surfaceElementId
        (Some (mkSurface 0 (Some surfaceElementId) None Undefined [] false None))
  end ;;;
  ret surfaceElementId.

(** *** Surface content and markup *)

(** [checkHasElementTag_]; reading [content.id] of nothing is a [TypeError]. *)
Definition checkHasElementTag_ (content : jsval) (id : string) : M bool :=
  match content with
  | Str s =>
      ret (match index 0 (" id=" ++ DQUOTE ++ id ++ DQUOTE) s with
           | Some _ => true
           | None => false
           end)
  | Elem eid => ret (String.eqb eid id)
  | Undefined | Null => throw TypeError
  end.

(** [wrapContentIfNecessary]. *)
Definition wrapContentIfNecessary (content : jsval) (id tag : string) : M jsval :=
  has <- checkHasElementTag_ content id ;;
  if has then ret content
  else ret (Str ("<" ++ tag ++ " id=" ++ DQUOTE ++ id ++ DQUOTE ++ ">"
                 ++ toString content ++ "</" ++ tag ++ ">")).

(** [getNonComponentSurfaceHtml]. *)
Definition getNonComponentSurfaceHtml (surfaceElementId : string) (content : jsval) : M jsval :=
  wrapContentIfNecessary content surfaceElementId (env_surfaceTag E).

(** [getSurfaceHtml]; the nested component carries the id of its surface. *)
Definition getSurfaceHtml (surfaceElementId : string) (content : jsval) : M jsval :=
  ks <- theSurface surfaceElementId ;;
  if truthyS (componentName (snd ks)) then
    st <- get ;;
    match components st !! surfaceElementId with
    | Some _ =>
        wrapContentIfNecessary content surfaceElementId
                               (env_componentTag E surfaceElementId)
    | None => throw TypeError
    end
  else getNonComponentSurfaceHtml surfaceElementId content.

(** [getSurfaceContent_]. *)
Definition getSurfaceContent_ (surfaceElementId : string) : M jsval :=
  ks <- theSurface surfaceElementId ;;
  if truthyS (componentName (snd ks)) then
    st <- get ;;
    match components st !! surfaceElementId with
    | Some true => ret (Str EmptyString)
    | Some false =>
        emit (SubExpand surfaceElementId) ;;;
        ret (env_componentContent E surfaceElementId)
    | None => throw TypeError
    end
  else
    ret (env_getSurfaceContent E (getSurfaceId_ surfaceElementId (snd ks)) surfaceElementId).

(** [getSurfaceElement]: the element is looked up, or created, the first
    time and kept in the record. *)
Definition getSurfaceElement (surfaceId : string) : M (option elemref) :=
  st <- get ;;
  match getSurface st surfaceId with
  | None => ret None
  | Some (k, surface) =>
      match element surface with
      | Some e => ret (Some e)
      | None =>
          if truthyS (componentName surface) then
            match components st !! surfaceId with
            | Some _ =>
                writeSurface k (set_element (Some (ElOfComponent surfaceId))) ;;;
                ret (Some (ElOfComponent surfaceId))
            | None => ret None
            end
          else
            let e := ElById (getSurfaceElementId_ surfaceId (Some surface)) in
            writeSurface k (set_element (Some e)) ;;;
            ret (Some e)
      end
  end.

(** *** Placeholder expander *)

(** [String.prototype.replace] with a replacement function: the scanned
    string is put together again with every token replaced by what the
    function gives for it, called match by match from left to right. *)
Fixpoint replaceTokens (f : option string -> M string) (l : list segment) : M string :=
  match l with
  | [] => ret EmptyString
  | Lit c :: l' =>
      r <- replaceTokens f l' ;;
      ret (String c r)
  | Tok _ id :: l' =>
      x <- f id ;;
      r <- replaceTokens f l' ;;
      ret (x ++ r)
  end.

(** The replacement function of [replaceSurfacePlaceholders_]; [expand] is
    the recursive call. *)
Definition expandPlaceholder (expand : jsval -> option string -> M jsval)
           (opt_surfaceElementId : option string) (id : option string) : M string :=
  id <- createPlaceholderSurface_ id opt_surfaceElementId ;;
  ks <- theSurface id ;;
  writeSurface (fst ks) (set_handled true) ;;;
  surfaceContent <- getSurfaceContent_ id ;;
  surfaceHtml <- getSurfaceHtml id surfaceContent ;;
  expandedHtml <- expand surfaceHtml (Some id) ;;
  modify (fun st => set_collected
                      (collectedSurfaces_ st ++ [mkCollected surfaceContent expandedHtml id]) st) ;;;
  ret (toString expandedHtml).

(** [replaceSurfacePlaceholders_]. *)
Fixpoint replaceSurfacePlaceholders_ (fuel : nat) (content : jsval)
         (opt_surfaceElementId : option string) {struct fuel} : M jsval :=
  match content with
  | Str s =>
      r <- replaceTokens
             (fun id =>
                match fuel with
                | O => outOfFuel
                | S n => expandPlaceholder (replaceSurfacePlaceholders_ n)
                                           opt_surfaceElementId id
                end)
             (scan s) ;;
      ret (Str r)
  | _ => ret content
  end.

(** *** The containment tree of an expansion

    The specification reads the collected list as a traversal of the tree
    of surfaces found by the expansion: a node for every token, under it the
    nodes of the tokens found in the markup of its surface. [discover] is
    [replaceSurfacePlaceholders_] giving that tree along with its result. *)







(** *** Surface renderer *)

(** [renderComponentSurface_]; what the nested component does when it is
    rendered is its own business, it ends up rendered. *)
Definition renderComponentSurface_ (surfaceElementId : string) (opt_content : jsval) : M unit :=
  st <- get ;;
  match components st !! surfaceElementId with
  | None => throw TypeError
  | Some true =>
      ks <- theSurface surfaceElementId ;;
      emit (UpdateComponent surfaceElementId (componentData (snd ks)))
  | Some false =>
      (if truthy opt_content then
         when (env_isEmpty E (trace st) surfaceElementId)
              (emit (SubAppend surfaceElementId opt_content)) ;;;
         (if decorating_ st
          then emit (SubDecorateAsSub surfaceElementId)
          else emit (SubRenderAsSub surfaceElementId))
       else emit (SubRender surfaceElementId)) ;;;
      modify (fun st => set_components (<[surfaceElementId := true]> (components st)) st)
  end.

(** [replaceSurfaceContent_]. *)
Definition replaceSurfaceContent_ (fuel : nat) (surfaceElementId : string) (content : jsval) : M unit :=
  el <- getSurfaceElement surfaceElementId ;;
  content <- replaceSurfacePlaceholders_ fuel content (Some surfaceElementId) ;;
  has <- checkHasElementTag_ content surfaceElementId ;;
  if has then
    ks <- theSurface surfaceElementId ;;
    writeSurface (fst ks) (set_element (Some (ElOfContent content))) ;;;
    match el with
    | None => throw TypeError
    | Some e =>
        st <- get ;;
        when (env_hasParent E (trace st) e) (emit (DomReplace e (ElOfContent content)))
    end
  else
    match el with
    | None => throw TypeError
    | Some e => emit (DomRemoveChildren e) ;;; emit (DomAppend e content)
    end.

(** The caching steps of [renderSurfaceContent], from the decoration
    pre-caching to the computation of [cacheHit]; [k] is the reference
    [surface] taken at the start of the method. *)
Definition cacheAndCompare (surfaceElementId k : string) (content opt_cacheContent : jsval)
  : M bool :=
  st <- get ;;
  when (decorating_ st)
       (el <- getSurfaceElement surfaceElementId ;;
        match el with
        | None => throw TypeError
        | Some e =>
            st <- get ;;
            cacheSurfaceContent surfaceElementId
              (Str (env_compress E (env_outerHTML E (trace st) e)))
        end) ;;;
  surface <- readSurface k ;;
  let previousCacheState := cacheState surface in
  let cacheContent := jsor opt_cacheContent content in
  cacheSurfaceContent surfaceElementId (if decorating_ st then content else cacheContent) ;;;
  surface <- readSurface k ;;
  let cacheHit := compareCacheStates_ (cacheState surface) previousCacheState in
  when (decorating_ st) (cacheSurfaceContent surfaceElementId cacheContent) ;;;
  ret cacheHit.

(** [renderPlaceholderSurfaceContents_]; [render] is the call to
    [renderSurfaceContent], and [content.replace] is a [TypeError] on content
    that is no string. *)
Definition renderPlaceholderSurfaceContents_ (render : string -> M unit)
           (content : jsval) (surfaceElementId : string) : M unit :=
  match content with
  | Str s =>
      forEach
        (fun id =>
           sid <- createPlaceholderSurface_ id (Some surfaceElementId) ;;
           render sid)
        (tokens s)
  | _ => throw TypeError
  end.

(** [renderSurfaceContent]. *)
Fixpoint renderSurfaceContent (fuel : nat) (surfaceElementId : string)
         (opt_content opt_cacheContent : jsval) {struct fuel} : M unit :=
  ks <- theSurface surfaceElementId ;;
  if truthyS (componentName (snd ks)) then
    renderComponentSurface_ surfaceElementId opt_content
  else
    content <- (if truthy opt_content then ret opt_content
                else getSurfaceContent_ surfaceElementId) ;;
    if isDefAndNotNull content then
      cacheHit <- cacheAndCompare surfaceElementId (fst ks) content opt_cacheContent ;;
      let cacheContent := jsor opt_cacheContent content in
      st <- get ;;
      if cacheHit then
        when (decorating_ st)
             (emit (AttachListeners cacheContent (Some surfaceElementId))) ;;;
        renderPlaceholderSurfaceContents_
          (fun sid =>
             match fuel with
             | O => outOfFuel
             | S n => renderSurfaceContent n sid Undefined Undefined
             end)
          content surfaceElementId
      else
        emit (AttachListeners cacheContent (Some surfaceElementId)) ;;;
        replaceSurfaceContent_ fuel surfaceElementId content
    else ret tt.

(** [updatePlaceholderSurface_]. *)
Definition updatePlaceholderSurface_ (fuel : nat) (collectedData : collected) : M unit :=
  let surfaceElementId := c_surfaceElementId collectedData in
  ks <- theSurface surfaceElementId ;;
  when (truthyS (componentName (snd ks)))
       (getSurfaceElement surfaceElementId ;;; emit (DomSwapForComponent surfaceElementId)) ;;;
  st <- get ;;
  if decorating_ st || truthyS (componentName (snd ks)) then
    renderSurfaceContent fuel surfaceElementId
                         (c_content collectedData) (c_cacheContent collectedData)
  else
    writeSurface (fst ks) (set_element None) ;;;
    cacheSurfaceContent surfaceElementId (c_cacheContent collectedData) ;;;
    emit (AttachListeners (c_cacheContent collectedData) (Some surfaceElementId)).

(** The loop of [updatePlaceholderSurfaces_]: [i] counts down from the
    length of the list, and the entry is read from the list as it is
    then. *)
Fixpoint updatePlaceholderSurfaces_loop (fuel : nat) (i : nat) : M unit :=
  match i with
  | O => ret tt
  | S j =>
      st <- get ;;
      match nth_error (collectedSurfaces_ st) j with
      | None => throw TypeError
      | Some d =>
          updatePlaceholderSurface_ fuel d ;;;
          st <- get ;;
          match nth_error (collectedSurfaces_ st) j with
          | None => throw TypeError
          | Some d' =>
              ks <- theSurface (c_surfaceElementId d') ;;
              writeSurface (fst ks) (set_handled false) ;;;
              updatePlaceholderSurfaces_loop fuel j
          end
      end
  end.

(** [updatePlaceholderSurfaces_]. *)
Definition updatePlaceholderSurfaces_ (fuel : nat) : M unit :=
  st <- get ;;
  updatePlaceholderSurfaces_loop fuel (List.length (collectedSurfaces_ st)) ;;;
  modify (set_collected []).

(** [renderSurfacesContent_]; the [for in] runs over the keys there are
    when it starts. *)
Definition renderSurfacesContent_ (fuel : nat) (surfaces : list string) : M unit :=
  modify (set_generatedIdCount ∅) ;;;
  forEach
    (fun surfaceElementId =>
       ks <- theSurface surfaceElementId ;;
       when (negb (handled (snd ks)))
            (renderSurfaceContent fuel surfaceElementId Undefined Undefined))
    surfaces ;;;
  st <- get ;;
  when (wasRendered st)
       (updatePlaceholderSurfaces_ fuel ;;; emit DetachUnusedListeners).

(** *** Lifecycle *)

(** [getElementContent_]. *)
Definition getElementContent_ : M jsval :=
  st <- get ;;
  let v := jsor (elementContent_ st) (env_getElementContent E) in
  modify (set_elementContent v) ;;;
  ret v.

(** [getElementExtendedContent]. *)
Definition getElementExtendedContent (fuel : nat) : M jsval :=
  c <- getElementContent_ ;;
  replaceSurfacePlaceholders_ fuel c None.

(** [attachInlineListeners_]. *)
Definition attachInlineListeners_ : M unit :=
  c <- getElementContent_ ;;
  emit (AttachListeners c None) ;;;
  modify (set_elementContent Null).

(** [syncAttrs_]: the attributes and their [sync] methods belong to the
    attribute machinery. *)
Definition syncAttrs_ : M unit := emit SyncAttrs.

(** [renderInternal]; [renderContent_] only acts on the DOM. *)
Definition renderInternal (fuel : nat) : M unit :=
  content <- getElementExtendedContent fuel ;;
  when (truthy content) (emit (RenderContent content)).

(** [attach]; [renderElement_] only acts on the DOM, [attached] is a hook. *)
Definition attach (fuel : nat) : M unit :=
  st <- get ;;
  when (negb (inDocument st))
       (emit RenderElement ;;;
        modify (set_inDocument true) ;;;
        when (negb (wasRendered st)) (updatePlaceholderSurfaces_ fuel) ;;;
        emit (Hook "attached")).

(** [detach]; [detached] is a hook. *)
Definition detach : M unit :=
  st <- get ;;
  when (inDocument st)
       (emit RemoveElement ;;;
        modify (set_inDocument false) ;;;
        emit (Hook "detached")) ;;;
  emit DetachAllListeners.

(** [render]. *)
Definition render (fuel : nat) : M unit :=
  st <- get ;;
  if wasRendered st then throw ALREADY_RENDERED
  else
    renderInternal fuel ;;;
    (st <- get ;; renderSurfacesContent_ fuel (surfaceIds_ st)) ;;;
    attachInlineListeners_ ;;;
    syncAttrs_ ;;;
    attach fuel ;;;
    modify (set_wasRendered true).

(** [decorate]; [decorateInternal] is a hook. *)
Definition decorate (fuel : nat) : M unit :=
  st <- get ;;
  if inDocument st then throw ALREADY_RENDERED
  else
    modify (set_decorating true) ;;;
    emit (Hook "decorateInternal") ;;;
    (c <- getElementContent_ ;; replaceSurfacePlaceholders_ fuel c None) ;;;
    (st <- get ;; renderSurfacesContent_ fuel (surfaceIds_ st)) ;;;
    attachInlineListeners_ ;;;
    syncAttrs_ ;;;
    attach fuel ;;;
    modify (set_decorating false) ;;;
    modify (set_wasRendered true).

(** [addSurfacesFromStaticHint_], the part of the constructor that
    registers the surfaces declared in [SURFACES]. *)
Definition addSurfacesFromStaticHint_ (SURFACES : list (string * surface)) : M unit :=
  modify (set_surfacesRenderAttrs ∅) ;;;
  forEach (fun sc => addSurface (fst sc) (Some (snd sc))) SURFACES.

End Component.

(** The fields of a component as the constructor sets them, with empty
    registries. *)
Definition constructed : state :=
  mkState false false false Undefined [] ∅ [] ∅ ∅ ∅ [].


(** Running one method after another, from an outcome. *)
Definition andThen {A B} (r : result A) (m : M B) : result B :=
  match r with
  | Ok _ st => m st
  | Throw e st => Throw e st
  | OutOfFuel => OutOfFuel
  end.


(** ** Example components

    A small document stands in for the DOM in the examples: the element of
    a surface shows, between its tags, its initial markup or what was
    appended to it since its children were last removed. *)

Definition sameEl (a b : elemref) : bool :=
  match a, b with
  | ElById i, ElById j => String.eqb i j
  | _, _ => false
  end.

Definition docInner (init : string) (e : elemref) (tr : list event) : string :=
  fold_left
    (fun acc ev =>
       match ev with
       | DomRemoveChildren e' => if sameEl e e' then EmptyString else acc
       | DomAppend e' c => if sameEl e e' then acc ++ toString c else acc
       | _ => acc
       end)
    tr init.

Definition docOuterHTML (init : string -> string) (tr : list event) (e : elemref) : string :=
  match e with
  | ElById i => "<div id=" ++ DQUOTE ++ i ++ DQUOTE ++ ">" ++ docInner (init i) e tr ++ "</div>"
  | ElOfContent c => toString c
  | ElOfComponent _ => EmptyString
  end.

(** A component with id [c], [div] tags, the given element content, the
    given contents of its surfaces (by surface id), and the given initial
    markup of the surface elements (by element id). The browser keeps the
    order of attributes, and the markup at hand has nothing to compress. *)
Definition exampleEnv (content : jsval) (provider : string -> jsval)
           (init : string -> string) : Env :=
  mkEnv "c" "div" content (fun surfaceId _ => provider surfaceId)
        false (fun s => s) (fun s => s)
        (docOuterHTML init) (fun _ _ => true) (fun _ _ => true)
        (fun _ => true) (fun _ => "div") (fun _ => Undefined).

(** No element content, no surface content, an empty document. *)
Definition bareEnv : Env :=
  exampleEnv Undefined (fun _ => Undefined) (fun _ => EmptyString).


(** A configuration object with only [componentName] set. *)
Definition widgetConfig : surface :=
  mkSurface 0 None (Some "Widget") Undefined [] false None.

(** A plain surface record, registered but not rendered yet. *)
Definition freshSurface : surface :=
  mkSurface Cache.NOT_INITIALIZED None None Undefined [] false None.

(** The component [c] with the surface [s] registered, under [c-s]. *)
Definition withSurface (decorating : bool) : state :=
  mkState decorating false false Undefined [] ∅ ["c-s"] ∅
          {["c-s" := freshSurface]} ∅ [].

(** The markup of the element [c-s] around the given inner markup. *)
Definition surfaceMarkup (inner : string) : string :=
  "<div id=" ++ DQUOTE ++ "c-s" ++ DQUOTE ++ ">" ++ inner ++ "</div>".

(** The surface [s] has the content [x]; the document shows [old] in its
    element. *)
Definition staleEnv : Env :=
  exampleEnv Undefined
             (fun surfaceId => if String.eqb surfaceId "s" then Str "x" else Undefined)
             (fun _ => "old").



(** ** Notions used to state the properties *)

(** [keeps R m]: whenever the method [m] returns, the states before and
    after are related by [R]. *)
Definition keeps (R : state -> state -> Prop) {A} (m : M A) : Prop :=
  forall st a st', m st = Ok a st' -> R st st'.

(** The lifecycle flags stay as they are. *)
Definition sameFlags (st st' : state) : Prop :=
  decorating_ st' = decorating_ st /\
  inDocument st' = inDocument st /\
  wasRendered st' = wasRendered st.

(** The collected list only grows, at its end. *)
Definition collectedGrows (st st' : state) : Prop :=
  exists l, collectedSurfaces_ st' = (collectedSurfaces_ st ++ l)%list.

(** The collected list stays as it is. *)
Definition sameCollected (st st' : state) : Prop :=
  collectedSurfaces_ st' = collectedSurfaces_ st.

(** The records there are stay, with their cache state and their kind. *)
Definition sameCacheStates (st st' : state) : Prop :=
  forall k s, surfaces st !! k = Some s ->
              exists s', surfaces st' !! k = Some s' /\
                         cacheState s' = cacheState s /\
                         componentName s' = componentName s.

(** The records there are stay, with their kind. *)
Definition sameKinds (st st' : state) : Prop :=
  forall k s, surfaces st !! k = Some s ->
              exists s', surfaces st' !! k = Some s' /\
                         componentName s' = componentName s.

(** [neverThrows e m]: the method [m] does not end by throwing [e]. *)
Definition neverThrows (e : error) {A} (m : M A) : Prop :=
  forall st st', m st <> Throw e st'.

(** The state with the record under [k] replaced. *)
Definition putSurface (k : string) (s : surface) (st : state) : state :=
  set_surfaces (<[k := s]> (surfaces st)) st.







(** The nested call of [renderSurfaceContent] at a given fuel. *)
Definition nestedRender (E : Env) (fuel : nat) (sid : string) : M unit :=
  match fuel with
  | O => outOfFuel
  | S n => renderSurfaceContent E n sid Undefined Undefined
  end.

(** The content [renderSurfaceContent] settles on. *)
Definition resolveContent (E : Env) (surfaceElementId : string) (surface : surface)
           (opt_content : jsval) : jsval :=
  if truthy opt_content then opt_content
  else env_getSurfaceContent E (getSurfaceId_ E surfaceElementId surface) surfaceElementId.

(** The cache state stored for a surface id, if it names a surface. *)
Definition storedCacheState (E : Env) (st : state) (surfaceId : string) : option Z :=
  match getSurface E st surfaceId with
  | Some (_, s) => Some (cacheState s)
  | None => None
  end.

(** [plainSurface E id k st s]: [id] names the record [s], stored under
    [k], and it holds no component. *)
Definition plainSurface (E : Env) (id k : string) (st : state) (s : surface) : Prop :=
  getSurface E st id = Some (k, s) /\ truthyS (componentName s) = false.

(** ** More of the component *)

Definition set_surfaceElementId (i : option string) (s : surface) : surface :=
  mkSurface (cacheState s) i (componentName s) (componentData s)
            (renderAttrs s) (handled s) (element s).

(** The text [buildPlaceholder] returns for an id. *)
Definition placeholderText (surfaceElementId : option string) : string :=
  "%%%%~s" ++ match whenTruthy surfaceElementId with
              | Some i => "-" ++ i
              | None => EmptyString
              end ++ "~%%%%".

Section MoreComponent.

Variable E : Env.

(** [buildPlaceholder]. *)
Definition buildPlaceholder (surfaceElementId : option string) (opt_data : option surface)
  : M string :=
  match whenTruthy surfaceElementId, opt_data with
  | Some i, Some data => addSurface E i (Some (set_surfaceElementId (Some i) data))
  | _, _ => ret tt
  end ;;;
  ret (placeholderText surfaceElementId).

(** Modelled from the spec: [SurfaceCollector.removeSurface] lives in
    [component/SurfaceCollector.js], which is not part of the sources at
    hand. By the specification it deletes the record under the id. *)
Definition collector_removeSurface (surfaceElementId : string) : M unit :=
  modify (fun st => set_surfaces (delete surfaceElementId (surfaces st)) st).

(** [removeSurface]. The value returned is the element taken out of its
    parent, if there is one; the id stays among the keys of [surfaceIds_],
    now with the value [false]. *)
Definition removeSurface (surfaceId : string) : M (option elemref) :=
  el <- getSurfaceElement E surfaceId ;;
  st <- get ;;
  let removed :=
    match el with
    | Some e => if env_hasParent E (trace st) e then Some e else None
    | None => None
    end in
  let surfaceElementId :=
    getSurfaceElementId_ E surfaceId
      (match getSurface E st surfaceId with Some ks => Some (snd ks) | None => None end) in
  collector_removeSurface surfaceElementId ;;;
  modify (fun st =>
            if existsb (String.eqb surfaceElementId) (surfaceIds_ st) then st
            else set_surfaceIds (surfaceIds_ st ++ [surfaceElementId])%list st) ;;;
  ret removed.

(** [getSurfaces]: the object is filled key by key, a later key with the
    same surface id overwrites an earlier one; reading [componentName] of
    a record that is not there is a [TypeError]. *)
Fixpoint getSurfaces_loop (keys : list string) (acc : gmap string surface)
  : M (gmap string surface) :=
  match keys with
  | [] => ret acc
  | surfaceElementId :: keys' =>
      st <- get ;;
      match collector_getSurface st surfaceElementId with
      | Some surface =>
          getSurfaces_loop keys' (<[getSurfaceId_ E surfaceElementId surface := surface]> acc)
      | None => throw TypeError
      end
  end.

Definition getSurfaces : M (gmap string surface) :=
  st <- get ;;
  getSurfaces_loop (surfaceIds_ st) ∅.

(** [renderAsSubComponent]. *)
Definition renderAsSubComponent (fuel : nat) : M unit :=
  attachInlineListeners_ E ;;;
  syncAttrs_ ;;;
  attach E fuel ;;;
  modify (set_wasRendered true).

(** [decorateAsSubComponent]. *)
Definition decorateAsSubComponent (fuel : nat) : M unit :=
  modify (set_decorating true) ;;;
  renderAsSubComponent fuel ;;;
  modify (set_decorating false).

(** A call to [attach] or to [detach]. *)
Inductive toggle := Attach | Detach.

Definition runToggle (fuel : nat) (t : toggle) : M unit :=
  match t with
  | Attach => attach E fuel
  | Detach => detach
  end.

End MoreComponent.

(** Whether the component is in the document after a series of calls to
    [attach] and [detach]. *)
Definition afterToggles (start : bool) (l : list toggle) : bool :=
  fold_left (fun _ t => match t with Attach => true | Detach => false end) l start.

(** [keepsAll R m]: however the method [m] ends, by returning or by
    throwing, the states before and after are related by [R]. *)
Definition keepsAll (R : state -> state -> Prop) {A} (m : M A) : Prop :=
  forall st,
    match m st with
    | Ok _ st' => R st st'
    | Throw _ st' => R st st'
    | OutOfFuel => True
    end.

(** The component is in decoration, and counts as rendered, as before. *)
Definition sameModes (st st' : state) : Prop :=
  decorating_ st' = decorating_ st /\ wasRendered st' = wasRendered st.

(** The records there are stay, with their kind, and what is collected
    is appended and names surfaces that are registered. *)
Definition collectsRegistered (E : Env) (st st' : state) : Prop :=
  sameKinds st st' /\
  exists l, collectedSurfaces_ st' = (collectedSurfaces_ st ++ l)%list /\
            Forall (fun d => is_Some (getSurface E st' (c_surfaceElementId d))) l.


(** * Properties *)

(** ** Strings and the placeholder token *)

Local Arguments String.append !_ _ / : simpl nomatch.

Lemma append_nil_r (s : string) : s ++ EmptyString = s.
Proof. induction s as [|c s IH]; simpl; [reflexivity | now rewrite IH]. Qed.

Lemma append_assoc (a b c : string) : (a ++ b) ++ c = a ++ b ++ c.
Proof. induction a as [|x a IH]; simpl; [reflexivity | now rewrite IH]. Qed.

Lemma length_append (a b : string) :
  String.length (a ++ b) = (String.length a + String.length b)%nat.
Proof. induction a as [|x a IH]; simpl; [reflexivity | now rewrite IH]. Qed.

Lemma strip_prefix_app (p r : string) : strip_prefix p (p ++ r) = Some r.
Proof.
  induction p as [|a p IH]; simpl; [reflexivity|].
  now rewrite Ascii.eqb_refl.
Qed.

Lemma strip_prefix_Some (p s r : string) :
  strip_prefix p s = Some r -> s = p ++ r.
Proof.
  revert s; induction p as [|a p IH]; simpl; intros s H.
  - now inversion H.
  - destruct s as [|b s]; [discriminate|].
    destruct (Ascii.eqb_spec a b) as [->|]; [|discriminate].
    now rewrite (IH _ H).
Qed.

Lemma substring_prefix (p s : string) :
  substring 0 (String.length p) s = p <-> exists r, s = p ++ r.
Proof.
  revert s; induction p as [|a p IH]; intros s; simpl.
  - split; [intros _; now exists s | intros _; now destruct s].
  - destruct s as [|b s]; simpl.
    + split; [discriminate | intros [r Hr]; discriminate].
    + split.
      * intros H; injection H as -> H. apply IH in H as [r ->]. now exists r.
      * intros [r Hr]; injection Hr as -> ->. f_equal. apply IH. now exists r.
Qed.

Lemma spanId_spec (s x r : string) :
  spanId s = (x, r) ->
  s = x ++ r /\ forallb idChar (list_ascii_of_string x) = true.
Proof.
  revert x r; induction s as [|c s IH]; simpl; intros x r H.
  - now inversion H.
  - destruct (idChar c) eqn:Hc.
    + destruct (spanId s) as [x' r'] eqn:Hs. inversion H; subst.
      destruct (IH _ _ eq_refl) as [-> Hall]. simpl. now rewrite Hc.
    + now inversion H.
Qed.

Lemma spanId_app (x r : string) :
  forallb idChar (list_ascii_of_string x) = true ->
  spanId (x ++ String "~" r) = (x, String "~" r).
Proof.
  induction x as [|c x IH]; simpl; intros H.
  - reflexivity.
  - apply andb_prop in H as [Hc Hx]. now rewrite Hc, (IH Hx).
Qed.

(** What [matchHere] finds is a match of the regular expression. *)
Lemma matchHere_sound (s : string) (id : option string) (len : nat) :
  matchHere s = Some (id, len) ->
  exists m post, s = m ++ post /\ TokenMatch m id /\ String.length m = len.
Proof.
  unfold matchHere. destruct (strip_prefix TOKEN_OPEN s) as [r|] eqn:Ho; [|discriminate].
  apply strip_prefix_Some in Ho. subst s.
  destruct (matchWithId r) as [m|] eqn:Hm.
  - intros H; inversion H; subst m; clear H.
    unfold matchWithId in Hm.
    destruct r as [|c r]; [discriminate|].
    destruct (Ascii.eqb_spec c "-") as [->|Hne].
    2:{ exfalso. revert Hm.
        destruct c as [[] [] [] [] [] [] [] []]; try discriminate.
        now contradiction Hne. }
    destruct (spanId r) as [x r2] eqn:Hs.
    destruct x as [|a x]; [discriminate|].
    destruct (strip_prefix TOKEN_CLOSE r2) as [post|] eqn:Hc; [|discriminate].
    inversion Hm; subst; clear Hm.
    apply spanId_spec in Hs as [-> Hall]. apply strip_prefix_Some in Hc. subst r2.
    exists (TOKEN_OPEN ++ "-" ++ String a x ++ TOKEN_CLOSE), post. repeat split.
    + simpl. now rewrite !append_assoc.
    + constructor; [discriminate | assumption].
    + simpl. rewrite length_append. simpl. lia.
  - unfold matchAnonymous.
    destruct (strip_prefix TOKEN_CLOSE r) as [post|] eqn:Hc; [|discriminate].
    intros H; inversion H; subst; clear H.
    apply strip_prefix_Some in Hc. subst r.
    exists (TOKEN_OPEN ++ TOKEN_CLOSE), post. repeat split. constructor.
Qed.

(** Every match of the regular expression at the head of a string is found,
    with its id. *)
Lemma matchHere_complete (m post : string) (id : option string) :
  TokenMatch m id -> matchHere (m ++ post) = Some (id, String.length m).
Proof.
  intros [|x Hx Hall].
  - reflexivity.
  - unfold matchHere. rewrite !append_assoc, strip_prefix_app.
    unfold matchWithId.
    change ("-" ++ x ++ TOKEN_CLOSE ++ post)
      with (String "-" (x ++ String "~" ("%%%%" ++ post))).
    cbv beta iota.
    rewrite (spanId_app x _ Hall).
    destruct x as [|a x]; [contradiction|].
    change (strip_prefix TOKEN_CLOSE (String "~" ("%%%%" ++ post)))
      with (strip_prefix TOKEN_CLOSE (TOKEN_CLOSE ++ post)).
    rewrite strip_prefix_app.
    cbv beta iota. f_equal. f_equal.
    unfold TOKEN_OPEN, TOKEN_CLOSE. rewrite !length_append. simpl. lia.
Qed.

Lemma containsToken_cons (c : ascii) (s : string) :
  containsToken s -> containsToken (String c s).
Proof.
  intros (pre & m & id & post & -> & Hm).
  now exists (String c pre), m, id, post.
Qed.

Lemma tokenMatch_nonempty (m : string) (id : option string) :
  TokenMatch m id -> exists c m', m = String c m'.
Proof. intros [|]; simpl; eauto. Qed.

(** A string without a match scans to its characters. *)
Lemma scan_plain (s : string) :
  ~ containsToken s -> scan s = map Lit (list_ascii_of_string s).
Proof.
  unfold scan. induction s as [|c s IH]; simpl; intros Hno; [reflexivity|].
  destruct (matchHere (String c s)) as [[id len]|] eqn:Hm.
  - exfalso. apply Hno. apply matchHere_sound in Hm as (m & post & Hs & Hm & _).
    exists EmptyString, m, id, post. now split.
  - f_equal. apply IH. intros Hc. apply Hno. now apply containsToken_cons.
Qed.

Lemma scanFrom_token (skip : nat) (s : string) :
  flat_map (fun g => match g with Tok _ id => [id] | Lit _ => [] end) (scanFrom skip s) <> [] ->
  containsToken s.
Proof.
  revert skip; induction s as [|c s IH]; intros skip; simpl; [congruence|].
  destruct skip as [|k].
  - destruct (matchHere (String c s)) as [[id len]|] eqn:Hm.
    + intros _. apply matchHere_sound in Hm as (m & post & Hs & Hm & _).
      exists EmptyString, m, id, post. now split.
    + simpl. intros H. apply containsToken_cons. now apply (IH 0%nat).
  - intros H. apply containsToken_cons. now apply (IH k).
Qed.

(** The scan finds a token exactly when the string contains a match. *)
Lemma containsToken_tokens (s : string) :
  containsToken s <-> tokens s <> [].
Proof.
  split.
  - intros (pre & m & id & post & -> & Hm). unfold tokens, scan.
    induction pre as [|c pre IH]; simpl.
    + destruct (tokenMatch_nonempty _ _ Hm) as (c & m' & ->). simpl.
      pose proof (matchHere_complete _ post _ Hm) as Hc. simpl in Hc. rewrite Hc.
      simpl. discriminate.
    + destruct (matchHere (String c (pre ++ m ++ post))) as [[i l]|]; simpl;
        [discriminate | exact IH].
  - apply scanFrom_token.
Qed.

Lemma tokens_plain (s : string) : tokens s = [] -> ~ containsToken s.
Proof. intros H Hc. now apply containsToken_tokens in Hc. Qed.

(** [hasComponentPrefix_] holds of the ids that start with the component
    id and a dash. *)
Lemma hasComponentPrefix_spec (E : Env) (surfaceId : string) :
  hasComponentPrefix_ E surfaceId = true <->
  exists rest, surfaceId = env_id E ++ "-" ++ rest.
Proof.
  unfold hasComponentPrefix_. rewrite String.eqb_eq.
  replace (String.length (env_id E) + 1)%nat with (String.length (env_id E ++ "-"))
    by (rewrite length_append; reflexivity).
  rewrite substring_prefix. split; intros [r Hr]; exists r.
  - now rewrite Hr, append_assoc.
  - now rewrite Hr, append_assoc.
Qed.

(** The hash is a 32-bit number, never one of the sentinels. *)
Lemma hashCode_range (s : string) : 0 <= hashCode s < 2 ^ 32.
Proof.
  unfold hashCode.
  generalize (list_ascii_of_string s). intros l.
  assert (H : forall h, 0 <= h < 2 ^ 32 ->
            0 <= fold_left (fun h c => (31 * h + Z.of_nat (nat_of_ascii c)) mod 2 ^ 32) l h < 2 ^ 32).
  { induction l as [|c l IH]; simpl; intros h Hh; [exact Hh|].
    apply IH. apply Z.mod_pos_bound. lia. }
  apply H. lia.
Qed.

(** ** Reasoning about methods *)

(** Field reads after an update of a record in the registry. *)
Lemma lookup_writeSurface (st : state) (k k' : string) (f : surface -> surface) :
  surfaces (set_surfaces (alter f k (surfaces st)) st) !! k' =
  if decide (k = k') then f <$> surfaces st !! k' else surfaces st !! k'.
Proof. simpl. rewrite lookup_alter. destruct (decide (k = k')); subst; reflexivity. Qed.

(** An update of a record leaves the resolution of surface ids as it is. *)
Lemma getSurface_alter (E : Env) (st : state) (f : surface -> surface) (k id : string) :
  getSurface E (set_surfaces (alter f k (surfaces st)) st) id =
  match getSurface E st id with
  | Some (k', s) => Some (k', if decide (k = k') then f s else s)
  | None => None
  end.
Proof.
  unfold getSurface, collector_getSurface. rewrite !lookup_writeSurface.
  destruct (surfaces st !! getSurfaceElementId_ E id None) eqn:H1.
  - destruct (decide (k = getSurfaceElementId_ E id None)); reflexivity.
  - assert (Hn : (if decide (k = getSurfaceElementId_ E id None)
                  then f <$> (None : option surface) else None) = None)
      by (destruct (decide (k = getSurfaceElementId_ E id None)); reflexivity).
    rewrite Hn. destruct (surfaces st !! id) eqn:H2;
      destruct (decide (k = id)); reflexivity.
Qed.

(** A surface that [getSurface] finds is stored under its key. *)
Lemma getSurface_lookup (E : Env) (st : state) (id k : string) (s : surface) :
  getSurface E st id = Some (k, s) -> surfaces st !! k = Some s.
Proof.
  unfold getSurface, collector_getSurface.
  destruct (surfaces st !! getSurfaceElementId_ E id None) eqn:H1.
  - intros H; inversion H; subst; exact H1.
  - destruct (surfaces st !! id) eqn:H2; [|discriminate].
    intros H; inversion H; subst; exact H2.
Qed.

Lemma getSurface_None (E : Env) (st : state) (id : string) :
  getSurface E st id = None ->
  surfaces st !! getSurfaceElementId_ E id None = None /\ surfaces st !! id = None.
Proof.
  unfold getSurface, collector_getSurface.
  destruct (surfaces st !! getSurfaceElementId_ E id None); [discriminate|].
  destruct (surfaces st !! id); [discriminate|]. now split.
Qed.

(** Inversion of a successful run. *)
Lemma bind_Ok {A B} (m : M A) (k : A -> M B) (st st' : state) (b : B) :
  bind m k st = Ok b st' ->
  exists a st1, m st = Ok a st1 /\ k a st1 = Ok b st'.
Proof.
  unfold bind. destruct (m st) as [a st1| |]; try discriminate. eauto.
Qed.

Lemma modify_Ok (f : state -> state) (st st' : state) (a : unit) :
  modify f st = Ok a st' -> st' = f st.
Proof. intros H; now inversion H. Qed.

Lemma ret_Ok {A} (a b : A) (st st' : state) :
  ret a st = Ok b st' -> b = a /\ st' = st.
Proof. intros H; now inversion H. Qed.

(** Equations of the monad. *)
Lemma bind_unfold {A B} (m : M A) (k : A -> M B) (st : state) :
  bind m k st =
  match m st with
  | Ok a st' => k a st'
  | Throw e st' => Throw e st'
  | OutOfFuel => OutOfFuel
  end.
Proof. reflexivity. Qed.

Lemma bind_get {B} (k : state -> M B) (st : state) : bind get k st = k st st.
Proof. reflexivity. Qed.

Lemma bind_ret {A B} (a : A) (k : A -> M B) (st : state) : bind (ret a) k st = k a st.
Proof. reflexivity. Qed.

Lemma bind_modify {B} (f : state -> state) (k : unit -> M B) (st : state) :
  bind (modify f) k st = k tt (f st).
Proof. reflexivity. Qed.

Lemma bind_assoc {A B C} (m : M A) (k : A -> M B) (k' : B -> M C) (st : state) :
  bind (bind m k) k' st = bind m (fun a => bind (k a) k') st.
Proof. unfold bind. destruct (m st); reflexivity. Qed.

Lemma theSurface_Ok (E : Env) (id : string) (st st' : state) (ks : string * surface) :
  theSurface E id st = Ok ks st' -> st' = st /\ getSurface E st id = Some ks.
Proof.
  unfold theSurface. destruct (getSurface E st id); intros H; inversion H; now subst.
Qed.

Lemma theSurface_found (E : Env) (id : string) (st : state) (ks : string * surface) :
  getSurface E st id = Some ks -> theSurface E id st = Ok ks st.
Proof. unfold theSurface. now intros ->. Qed.

Section Frame.

Variable E : Env.

(** A relation between the state before and after, kept by every step. *)
Variable R : state -> state -> Prop.
Hypothesis R_refl : forall st, R st st.
Hypothesis R_trans : forall a b c, R a b -> R b c -> R a c.

Lemma keeps_ret {A} (a : A) : keeps R (ret a).
Proof. intros st b st' H; inversion H; subst; apply R_refl. Qed.

Lemma keeps_get : keeps R get.
Proof. intros st b st' H; inversion H; subst; apply R_refl. Qed.

Lemma keeps_throw {A} (e : error) : keeps R (@throw A e).
Proof. intros st b st' H; discriminate. Qed.

Lemma keeps_outOfFuel {A} : keeps R (@outOfFuel A).
Proof. intros st b st' H; discriminate. Qed.

Lemma keeps_bind {A B} (m : M A) (k : A -> M B) :
  keeps R m -> (forall a, keeps R (k a)) -> keeps R (bind m k).
Proof.
  intros Hm Hk st b st' H. unfold bind in H.
  destruct (m st) as [a st1| |] eqn:Hs; try discriminate.
  eapply R_trans; [eapply Hm, Hs | eapply Hk, H].
Qed.

Lemma keeps_modify (f : state -> state) :
  (forall st, R st (f st)) -> keeps R (modify f).
Proof. intros Hf st b st' H; inversion H; subst; apply Hf. Qed.

Lemma keeps_when (c : bool) (m : M unit) : keeps R m -> keeps R (when c m).
Proof. intros Hm; destruct c; simpl; [exact Hm | apply keeps_ret]. Qed.

Lemma keeps_forEach {A} (f : A -> M unit) (l : list A) :
  (forall a, keeps R (f a)) -> keeps R (forEach f l).
Proof.
  intros Hf; induction l as [|a l IH]; simpl.
  - apply keeps_ret.
  - apply keeps_bind; [apply Hf | intros _; exact IH].
Qed.

Lemma keeps_theSurface (id : string) : keeps R (theSurface E id).
Proof.
  intros st b st' H. unfold theSurface in H.
  destruct (getSurface E st id); inversion H; subst; apply R_refl.
Qed.

Lemma keeps_readSurface (k : string) : keeps R (readSurface k).
Proof.
  intros st b st' H. unfold readSurface in H.
  destruct (surfaces st !! k); inversion H; subst; apply R_refl.
Qed.

(** The steps that change the state. *)
Hypothesis R_trace : forall st l, R st (set_trace l st).
Hypothesis R_generated : forall st m, R st (set_generatedIdCount m st).
Hypothesis R_surfaceIds : forall st l, R st (set_surfaceIds l st).
Hypothesis R_renderAttrs : forall st m, R st (set_surfacesRenderAttrs m st).
Hypothesis R_components : forall st m, R st (set_components m st).
Hypothesis R_push :
  forall st x, R st (set_collected (collectedSurfaces_ st ++ [x]) st).
Hypothesis R_register :
  forall st k v, surfaces st !! k = None ->
                 R st (set_surfaces (<[k := v]> (surfaces st)) st).
Hypothesis R_handled :
  forall st k b, R st (set_surfaces (alter (set_handled b) k (surfaces st)) st).
Hypothesis R_element :
  forall st k e, R st (set_surfaces (alter (set_element e) k (surfaces st)) st).

Lemma keeps_emit (e : event) : keeps R (emit e).
Proof. apply keeps_modify. intros st. apply R_trace. Qed.

Ltac keeps_step :=
  lazymatch goal with
  | |- keeps R (bind _ _) => apply keeps_bind; [|intros ?]
  | |- keeps R (ret _) => apply keeps_ret
  | |- keeps R get => apply keeps_get
  | |- keeps R (throw _) => apply keeps_throw
  | |- keeps R outOfFuel => apply keeps_outOfFuel
  | |- keeps R (when _ _) => apply keeps_when
  | |- keeps R (emit _) => apply keeps_emit
  | |- keeps R (forEach _ _) => apply keeps_forEach; intros ?
  | |- keeps R (theSurface _ _) => apply keeps_theSurface
  | |- keeps R (readSurface _) => apply keeps_readSurface
  | |- keeps R (writeSurface _ (set_handled _)) =>
      apply keeps_modify; intros ?; apply R_handled
  | |- keeps R (writeSurface _ (set_element _)) =>
      apply keeps_modify; intros ?; apply R_element
  | |- keeps R (if ?c then _ else _) => destruct c
  | |- keeps R (match ?x with _ => _ end) => destruct x
  end.

Lemma keeps_cacheSurfaceRenderAttrs_ (id : string) :
  keeps R (cacheSurfaceRenderAttrs_ E id).
Proof.
  unfold cacheSurfaceRenderAttrs_. repeat keeps_step.
  - apply keeps_modify; intros ?; apply R_renderAttrs.
  - apply keeps_modify; intros ?; apply R_renderAttrs.
Qed.

Lemma keeps_generateSurfaceElementId_ (p : option string) :
  keeps R (generateSurfaceElementId_ E p).
Proof.
  unfold generateSurfaceElementId_. repeat keeps_step.
  apply keeps_modify; intros ?; apply R_generated.
Qed.

(** The surface a placeholder creates is registered under a key that
    was free. *)
Lemma keeps_createFresh (id : string) (st st' : state) (a : unit) :
  getSurface E st id = None ->
  addSurface E id (Some (mkSurface 0 (Some id) None Undefined [] false None)) st = Ok a st' ->
  R st st'.
Proof.
  intros Hnone. apply getSurface_None in Hnone as [Hk Hid].
  unfold addSurface. intros H.
  set (key := getSurfaceElementId_ E id _) in H.
  assert (Hfree : surfaces st !! key = None).
  { subst key. unfold getSurfaceElementId_ in *. simpl in *.
    destruct (String.eqb id EmptyString); assumption. }
  apply bind_Ok in H as (? & st1 & H1 & H). apply modify_Ok in H1.
  apply bind_Ok in H as (? & st2 & H2 & H). apply modify_Ok in H2.
  apply bind_Ok in H as (? & st3 & H3 & H). simpl in H3. apply ret_Ok in H3 as [_ ->].
  apply keeps_cacheSurfaceRenderAttrs_ in H.
  assert (Hs1 : surfaces st1 = surfaces st)
    by (subst st1; destruct (existsb _ _); reflexivity).
  eapply R_trans; [|eapply R_trans; [|exact H]].
  - subst st1. destruct (existsb _ _); [apply R_refl | apply R_surfaceIds].
  - subst st2. apply R_register. now rewrite Hs1.
Qed.

Lemma keeps_createPlaceholderSurface_ (id parent : option string) :
  keeps R (createPlaceholderSurface_ E id parent).
Proof.
  unfold createPlaceholderSurface_. apply keeps_bind.
  - destruct id; [apply keeps_ret | apply keeps_generateSurfaceElementId_].
  - intros sid st a st' H.
    apply bind_Ok in H as (st0 & st1 & H1 & H). inversion H1; subst st0 st1; clear H1.
    apply bind_Ok in H as (? & st1 & H1 & H). apply ret_Ok in H as [_ ->].
    destruct (getSurface E st sid) eqn:Hg.
    + apply ret_Ok in H1 as [_ ->]. apply R_refl.
    + eapply keeps_createFresh; eassumption.
Qed.

Lemma keeps_checkHasElementTag_ (c : jsval) (id : string) :
  keeps R (checkHasElementTag_ c id).
Proof. unfold checkHasElementTag_. repeat keeps_step. Qed.

Lemma keeps_wrapContentIfNecessary (c : jsval) (id tag : string) :
  keeps R (wrapContentIfNecessary c id tag).
Proof.
  unfold wrapContentIfNecessary. apply keeps_bind;
    [apply keeps_checkHasElementTag_ | intros []; apply keeps_ret].
Qed.

Lemma keeps_getSurfaceHtml (id : string) (c : jsval) :
  keeps R (getSurfaceHtml E id c).
Proof.
  unfold getSurfaceHtml, getNonComponentSurfaceHtml.
  repeat keeps_step; apply keeps_wrapContentIfNecessary.
Qed.

Lemma keeps_getSurfaceContent_ (id : string) :
  keeps R (getSurfaceContent_ E id).
Proof. unfold getSurfaceContent_. repeat keeps_step. Qed.

Lemma keeps_getSurfaceElement (id : string) :
  keeps R (getSurfaceElement E id).
Proof. unfold getSurfaceElement. repeat keeps_step. Qed.

Lemma keeps_replaceTokens (f : option string -> M string) (l : list segment) :
  (forall id, keeps R (f id)) -> keeps R (replaceTokens f l).
Proof.
  intros Hf. induction l as [|[c|raw id] l IH]; simpl.
  - apply keeps_ret.
  - repeat keeps_step. exact IH.
  - repeat keeps_step; [apply Hf | exact IH].
Qed.

Lemma keeps_expandPlaceholder (expand : jsval -> option string -> M jsval)
      (owner id : option string) :
  (forall c o, keeps R (expand c o)) -> keeps R (expandPlaceholder E expand owner id).
Proof.
  intros Hx. unfold expandPlaceholder. repeat keeps_step.
  - apply keeps_createPlaceholderSurface_.
  - apply keeps_getSurfaceContent_.
  - apply keeps_getSurfaceHtml.
  - apply Hx.
  - apply keeps_modify; intros ?; apply R_push.
Qed.

Lemma keeps_replaceSurfacePlaceholders_ (fuel : nat) (c : jsval) (owner : option string) :
  keeps R (replaceSurfacePlaceholders_ E fuel c owner).
Proof.
  revert c owner; induction fuel as [|n IH]; intros c owner;
    destruct c; simpl; try apply keeps_ret.
  - apply keeps_bind; [|intros ?; apply keeps_ret].
    apply keeps_replaceTokens; intros ?; apply keeps_outOfFuel.
  - apply keeps_bind; [|intros ?; apply keeps_ret].
    apply keeps_replaceTokens; intros ?. apply keeps_expandPlaceholder. exact IH.
Qed.

Lemma keeps_replaceSurfaceContent_ (fuel : nat) (id : string) (c : jsval) :
  keeps R (replaceSurfaceContent_ E fuel id c).
Proof.
  unfold replaceSurfaceContent_. apply keeps_bind; [apply keeps_getSurfaceElement|].
  intros el. apply keeps_bind; [apply keeps_replaceSurfacePlaceholders_|].
  intros c'. apply keeps_bind; [apply keeps_checkHasElementTag_|].
  intros has. repeat keeps_step.
Qed.

(** From here on the cache state is written as well. *)
Hypothesis R_cacheState :
  forall st k v, R st (set_surfaces (alter (set_cacheState v) k (surfaces st)) st).

Lemma keeps_cacheSurfaceContent (id : string) (c : jsval) :
  keeps R (cacheSurfaceContent E id c).
Proof.
  unfold cacheSurfaceContent. repeat keeps_step.
  apply keeps_modify; intros ?; apply R_cacheState.
Qed.

Lemma keeps_cacheAndCompare (id k : string) (c occ : jsval) :
  keeps R (cacheAndCompare E id k c occ).
Proof.
  unfold cacheAndCompare.
  repeat first [apply keeps_cacheSurfaceContent | apply keeps_getSurfaceElement | keeps_step].
Qed.

Lemma keeps_renderComponentSurface_ (id : string) (c : jsval) :
  keeps R (renderComponentSurface_ E id c).
Proof.
  unfold renderComponentSurface_.
  repeat first [keeps_step | apply keeps_modify; intros ?; apply R_components].
Qed.

Lemma keeps_renderPlaceholderSurfaceContents_ (render : string -> M unit)
      (c : jsval) (id : string) :
  (forall sid, keeps R (render sid)) ->
  keeps R (renderPlaceholderSurfaceContents_ E render c id).
Proof.
  intros Hr. unfold renderPlaceholderSurfaceContents_.
  repeat first [apply keeps_createPlaceholderSurface_ | apply Hr | keeps_step].
Qed.

Lemma keeps_renderSurfaceContent (fuel : nat) (id : string) (oc occ : jsval) :
  keeps R (renderSurfaceContent E fuel id oc occ).
Proof.
  revert id oc occ; induction fuel as [|n IH]; intros id oc occ; simpl.
  - repeat first [apply keeps_renderComponentSurface_ | apply keeps_getSurfaceContent_
                  | apply keeps_cacheAndCompare | apply keeps_replaceSurfaceContent_
                  | apply keeps_renderPlaceholderSurfaceContents_; intros ?
                  | keeps_step].
  - repeat first [apply keeps_renderComponentSurface_ | apply keeps_getSurfaceContent_
                  | apply keeps_cacheAndCompare | apply keeps_replaceSurfaceContent_
                  | apply keeps_renderPlaceholderSurfaceContents_; intros ?
                  | apply IH
                  | keeps_step].
Qed.

Lemma keeps_updatePlaceholderSurface_ (fuel : nat) (d : collected) :
  keeps R (updatePlaceholderSurface_ E fuel d).
Proof.
  unfold updatePlaceholderSurface_.
  repeat first [apply keeps_renderSurfaceContent | apply keeps_getSurfaceElement
                | apply keeps_cacheSurfaceContent | keeps_step].
Qed.

Lemma keeps_updatePlaceholderSurfaces_loop (fuel i : nat) :
  keeps R (updatePlaceholderSurfaces_loop E fuel i).
Proof.
  induction i as [|j IH]; simpl.
  - apply keeps_ret.
  - repeat first [apply keeps_updatePlaceholderSurface_ | apply IH | keeps_step].
Qed.

(** The passes that also reset fields of the component. *)
Hypothesis R_collected : forall st l, R st (set_collected l st).
Hypothesis R_elementContent : forall st v, R st (set_elementContent v st).

Lemma keeps_updatePlaceholderSurfaces_ (fuel : nat) :
  keeps R (updatePlaceholderSurfaces_ E fuel).
Proof.
  unfold updatePlaceholderSurfaces_.
  repeat first [apply keeps_updatePlaceholderSurfaces_loop
               | apply keeps_modify; intros ?; apply R_collected | keeps_step].
Qed.

Lemma keeps_renderSurfacesContent_ (fuel : nat) (l : list string) :
  keeps R (renderSurfacesContent_ E fuel l).
Proof.
  unfold renderSurfacesContent_.
  repeat first [apply keeps_updatePlaceholderSurfaces_ | apply keeps_renderSurfaceContent
               | apply keeps_modify; intros ?; apply R_generated | keeps_step].
Qed.

Lemma keeps_getElementContent_ : keeps R (getElementContent_ E).
Proof.
  unfold getElementContent_.
  repeat first [apply keeps_modify; intros ?; apply R_elementContent | keeps_step].
Qed.

Lemma keeps_attachInlineListeners_ : keeps R (attachInlineListeners_ E).
Proof.
  unfold attachInlineListeners_.
  repeat first [apply keeps_getElementContent_
               | apply keeps_modify; intros ?; apply R_elementContent | keeps_step].
Qed.

Lemma keeps_renderInternal (fuel : nat) : keeps R (renderInternal E fuel).
Proof.
  unfold renderInternal, getElementExtendedContent.
  repeat first [apply keeps_getElementContent_ | apply keeps_replaceSurfacePlaceholders_
               | keeps_step].
Qed.

End Frame.

(** *** Three relations that are kept *)

Lemma sameFlags_refl st : sameFlags st st.
Proof. now repeat split. Qed.

Lemma sameFlags_trans a b c : sameFlags a b -> sameFlags b c -> sameFlags a c.
Proof. unfold sameFlags. intros (?&?&?) (?&?&?). repeat split; congruence. Qed.

Lemma collectedGrows_refl st : collectedGrows st st.
Proof. exists []. now rewrite app_nil_r. Qed.

Lemma collectedGrows_trans a b c :
  collectedGrows a b -> collectedGrows b c -> collectedGrows a c.
Proof.
  intros [l1 H1] [l2 H2]. exists (l1 ++ l2)%list. now rewrite H2, H1, <- app_assoc.
Qed.

Lemma sameCollected_trans a b c :
  sameCollected a b -> sameCollected b c -> sameCollected a c.
Proof. unfold sameCollected. congruence. Qed.

Lemma sameCacheStates_refl st : sameCacheStates st st.
Proof. intros k s H. exists s; auto. Qed.

Lemma sameCacheStates_trans a b c :
  sameCacheStates a b -> sameCacheStates b c -> sameCacheStates a c.
Proof.
  intros H1 H2 k s H. destruct (H1 _ _ H) as (s1 & Hs1 & E1 & N1).
  destruct (H2 _ _ Hs1) as (s2 & Hs2 & E2 & N2). exists s2. repeat split; congruence.
Qed.

Lemma sameCacheStates_alter (f : surface -> surface) st k :
  (forall s, cacheState (f s) = cacheState s /\ componentName (f s) = componentName s) ->
  sameCacheStates st (set_surfaces (alter f k (surfaces st)) st).
Proof.
  intros Hf k' s H. rewrite lookup_writeSurface.
  destruct (decide (k = k')); rewrite H; simpl; [|exists s; auto].
  exists (f s). split; [reflexivity | apply Hf].
Qed.

Lemma sameCacheStates_insert st k v :
  surfaces st !! k = None ->
  sameCacheStates st (set_surfaces (<[k := v]> (surfaces st)) st).
Proof.
  intros Hk k' s H. simpl. exists s. split; [|auto].
  rewrite lookup_insert_ne; [exact H | congruence].
Qed.

Lemma sameKinds_refl st : sameKinds st st.
Proof. intros k s H. exists s; auto. Qed.

Lemma sameKinds_trans a b c : sameKinds a b -> sameKinds b c -> sameKinds a c.
Proof.
  intros H1 H2 k s H. destruct (H1 _ _ H) as (s1 & Hs1 & N1).
  destruct (H2 _ _ Hs1) as (s2 & Hs2 & N2). exists s2. split; congruence.
Qed.

Lemma sameKinds_alter (f : surface -> surface) st k :
  (forall s, componentName (f s) = componentName s) ->
  sameKinds st (set_surfaces (alter f k (surfaces st)) st).
Proof.
  intros Hf k' s H. rewrite lookup_writeSurface.
  destruct (decide (k = k')); rewrite H; simpl; [|exists s; auto].
  exists (f s). split; [reflexivity | apply Hf].
Qed.

Lemma sameKinds_insert st k v :
  surfaces st !! k = None ->
  sameKinds st (set_surfaces (<[k := v]> (surfaces st)) st).
Proof.
  intros Hk k' s H. simpl. exists s. split; [|auto].
  rewrite lookup_insert_ne; [exact H | congruence].
Qed.

Create HintDb frame.
#[local] Hint Resolve sameKinds_refl sameKinds_trans sameKinds_insert : frame.
#[local] Hint Extern 1 (sameKinds _ (set_surfaces (alter _ _ _) _)) =>
  (apply sameKinds_alter; intros ?; reflexivity) : frame.
#[local] Hint Extern 2 (sameKinds _ _) =>
  (let s := fresh in intros ? s ?; simpl; exists s; auto) : frame.
#[local] Hint Resolve sameFlags_refl sameFlags_trans collectedGrows_refl
  collectedGrows_trans sameCollected_trans sameCacheStates_refl
  sameCacheStates_trans sameCacheStates_insert : frame.
#[local] Hint Extern 1 (sameFlags _ _) => (repeat split; reflexivity) : frame.
#[local] Hint Extern 1 (sameCollected _ _) => reflexivity : frame.
#[local] Hint Extern 1 (collectedGrows ?st (set_collected _ ?st)) =>
  (eexists; reflexivity) : frame.
#[local] Hint Extern 1 (collectedGrows _ _) =>
  (exists []; simpl; now rewrite app_nil_r) : frame.
#[local] Hint Extern 1 (sameCacheStates _ (set_surfaces (alter _ _ _) _)) =>
  (apply sameCacheStates_alter; intros ?; split; reflexivity) : frame.
#[local] Hint Extern 2 (sameCacheStates _ _) =>
  (let s := fresh in intros ? s ?; simpl; exists s; auto) : frame.

Ltac frame := intros; eauto with frame.


(** The expansion keeps the cache state of every record there is. *)
Lemma replaceSurfacePlaceholders_sameCacheStates E fuel c owner :
  keeps sameCacheStates (replaceSurfacePlaceholders_ E fuel c owner).
Proof. apply keeps_replaceSurfacePlaceholders_; frame. Qed.


Lemma renderSurfaceContent_collectedGrows E fuel id oc occ :
  keeps collectedGrows (renderSurfaceContent E fuel id oc occ).
Proof. apply keeps_renderSurfaceContent; frame. Qed.


Lemma updatePlaceholderSurfaces_sameFlags E fuel :
  keeps sameFlags (updatePlaceholderSurfaces_ E fuel).
Proof. apply keeps_updatePlaceholderSurfaces_; frame. Qed.

Lemma renderSurfacesContent_sameFlags E fuel l :
  keeps sameFlags (renderSurfacesContent_ E fuel l).
Proof. apply keeps_renderSurfacesContent_; frame. Qed.

Lemma renderInternal_sameFlags E fuel : keeps sameFlags (renderInternal E fuel).
Proof. apply keeps_renderInternal; frame. Qed.

Lemma attachInlineListeners_sameFlags E : keeps sameFlags (attachInlineListeners_ E).
Proof. apply keeps_attachInlineListeners_; frame. Qed.

Lemma replaceSurfacePlaceholders_sameFlags E fuel c owner :
  keeps sameFlags (replaceSurfacePlaceholders_ E fuel c owner).
Proof. apply keeps_replaceSurfacePlaceholders_; frame. Qed.

Lemma getElementContent_sameFlags E : keeps sameFlags (getElementContent_ E).
Proof. apply keeps_getElementContent_; frame. Qed.

Lemma renderSurfaceContent_sameFlags E fuel id oc occ :
  keeps sameFlags (renderSurfaceContent E fuel id oc occ).
Proof. apply keeps_renderSurfaceContent; frame. Qed.


(** ** The order of discovery and of finalization *)


Section Discovery.

Variable E : Env.








End Discovery.

(** ** The steps of the renderer on a surface that holds no component *)

Lemma set_surfaces_same (st : state) : set_surfaces (surfaces st) st = st.
Proof. now destruct st. Qed.


Lemma alter_put (f : surface -> surface) (k : string) (s : surface)
      (m : gmap string surface) :
  m !! k = Some s -> alter f k m = <[k := f s]> m.
Proof.
  intros H. apply map_eq. intros i. rewrite lookup_alter, lookup_insert.
  destruct (decide (k = i)); subst; [now rewrite H | reflexivity].
Qed.

Lemma writeSurface_put (k : string) (f : surface -> surface) (s : surface) (st : state) :
  surfaces st !! k = Some s -> writeSurface k f st = Ok tt (putSurface k (f s) st).
Proof.
  intros H. unfold writeSurface, modify, putSurface. now rewrite (alter_put _ _ _ _ H).
Qed.

Lemma putSurface_same (k : string) (s : surface) (st : state) :
  surfaces st !! k = Some s -> putSurface k s st = st.
Proof.
  intros H. unfold putSurface. rewrite (insert_id _ _ _ H). apply set_surfaces_same.
Qed.

Lemma putSurface_put (k : string) (s1 s2 : surface) (st : state) :
  putSurface k s2 (putSurface k s1 st) = putSurface k s2 st.
Proof. unfold putSurface. simpl. now rewrite insert_insert_eq. Qed.


Ltac mstep H := rewrite bind_unfold, H; cbv beta iota.

Section Plain.

Variable E : Env.

Lemma getSurface_put (id k : string) (s s' : surface) (st : state) :
  getSurface E st id = Some (k, s) ->
  getSurface E (putSurface k s' st) id = Some (k, s').
Proof.
  unfold getSurface, collector_getSurface, putSurface. simpl.
  destruct (surfaces st !! getSurfaceElementId_ E id None) eqn:H1.
  - intros H; inversion H; subst. now rewrite lookup_insert_eq.
  - destruct (surfaces st !! id) eqn:H2; [|discriminate].
    intros H; inversion H; subst.
    rewrite lookup_insert. destruct (decide (k = getSurfaceElementId_ E k None)).
    + now rewrite <- e.
    + now rewrite H1, lookup_insert_eq.
Qed.

Variables (id k : string).

Local Abbreviation plain := (plainSurface E id k).

Lemma plain_put (st : state) (s s' : surface) :
  plain st s -> componentName s' = componentName s -> plain (putSurface k s' st) s'.
Proof.
  intros [Hg Hc] Hn. split; [eapply getSurface_put, Hg | now rewrite Hn].
Qed.

Lemma getSurfaceContent__plain (st : state) (s : surface) :
  plain st s ->
  getSurfaceContent_ E id st = Ok (resolveContent E id s Undefined) st.
Proof.
  intros [Hg Hc]. unfold getSurfaceContent_.
  rewrite bind_unfold, (theSurface_found _ _ _ _ Hg). simpl. now rewrite Hc.
Qed.


Lemma cacheSurfaceContent_plain (st : state) (s : surface) (v : jsval) :
  plain st s ->
  cacheSurfaceContent E id v st =
  Ok tt (putSurface k (set_cacheState (computeSurfaceCacheState_ E v) s) st).
Proof.
  intros [Hg Hc]. unfold cacheSurfaceContent.
  rewrite bind_unfold, (theSurface_found _ _ _ _ Hg). simpl.
  apply writeSurface_put. eapply getSurface_lookup, Hg.
Qed.

Lemma readSurface_plain (st : state) (s : surface) :
  plain st s -> readSurface k st = Ok s st.
Proof.
  intros [Hg _]. unfold readSurface. now rewrite (getSurface_lookup _ _ _ _ _ Hg).
Qed.

(** The caching steps outside decoration: the new state is compared with
    the stored one, and stored. *)
Lemma cacheAndCompare_rendering (st : state) (s : surface) (content occ : jsval) :
  plain st s -> decorating_ st = false ->
  cacheAndCompare E id k content occ st =
  Ok (compareCacheStates_ (computeSurfaceCacheState_ E (jsor occ content)) (cacheState s))
     (putSurface k (set_cacheState (computeSurfaceCacheState_ E (jsor occ content)) s) st).
Proof.
  intros Hp Hd. unfold cacheAndCompare. rewrite bind_get, Hd. simpl when.
  rewrite bind_ret.
  rewrite bind_unfold, (readSurface_plain _ _ Hp).
  rewrite bind_unfold, (cacheSurfaceContent_plain _ _ _ Hp).
  assert (Hp' : plain (putSurface k (set_cacheState
                   (computeSurfaceCacheState_ E (jsor occ content)) s) st)
                  (set_cacheState (computeSurfaceCacheState_ E (jsor occ content)) s))
    by (apply (plain_put _ _ _ Hp); reflexivity).
  rewrite bind_unfold, (readSurface_plain _ _ Hp'). reflexivity.
Qed.


(** [renderSurfaceContent] on a surface that holds no component. *)
Lemma renderSurfaceContent_plain (fuel : nat) (st : state) (s : surface)
      (opt_content opt_cacheContent : jsval) :
  plain st s ->
  renderSurfaceContent E fuel id opt_content opt_cacheContent st =
  let content := resolveContent E id s opt_content in
  if isDefAndNotNull content then
    (cacheHit <- cacheAndCompare E id k content opt_cacheContent ;;
     st' <- get ;;
     if cacheHit then
       when (decorating_ st')
            (emit (AttachListeners (jsor opt_cacheContent content) (Some id))) ;;;
       renderPlaceholderSurfaceContents_ E (nestedRender E fuel) content id
     else
       emit (AttachListeners (jsor opt_cacheContent content) (Some id)) ;;;
       replaceSurfaceContent_ E fuel id content) st
  else Ok tt st.
Proof.
  intros Hp. pose proof Hp as [Hg Hc].
  assert (Hres : (if truthy opt_content then ret opt_content
                  else getSurfaceContent_ E id) st
                 = Ok (resolveContent E id s opt_content) st).
  { unfold resolveContent at 1. destruct (truthy opt_content); [reflexivity|].
    now rewrite (getSurfaceContent__plain _ _ Hp). }
  destruct fuel; cbn [renderSurfaceContent];
    rewrite bind_unfold, (theSurface_found _ _ _ _ Hg); cbv beta iota; cbn [fst snd];
    rewrite Hc, bind_unfold, Hres; cbv beta iota zeta;
    destruct (isDefAndNotNull (resolveContent E id s opt_content)); reflexivity.
Qed.

End Plain.

(** ** The cache evaluator *)

Lemma compareCacheStates_true (current previous : Z) :
  compareCacheStates_ current previous = true <->
  current <> Cache.NOT_INITIALIZED /\ current <> Cache.NOT_CACHEABLE /\
  previous <> Cache.NOT_INITIALIZED /\ previous <> Cache.NOT_CACHEABLE /\
  current = previous.
Proof.
  unfold compareCacheStates_.
  rewrite !andb_true_iff, !negb_true_iff, !Z.eqb_neq, Z.eqb_eq.
  split.
  - intros [[H1 H2] H3]. subst previous. repeat split; assumption.
  - intros (H1 & H2 & _ & _ & H3). repeat split; assumption.
Qed.

(** C3. [compareCacheStates_(current, previous)] is true if and only if
    neither [current] nor [previous] is [NOT_INITIALIZED] or
    [NOT_CACHEABLE] and [current === previous]; being a function of its two
    arguments, it is pure, total and deterministic. *)
Theorem compareCacheStates_iff (current previous : Z) :
  compareCacheStates_ current previous = true <->
  current <> Cache.NOT_INITIALIZED /\ current <> Cache.NOT_CACHEABLE /\
  previous <> Cache.NOT_INITIALIZED /\ previous <> Cache.NOT_CACHEABLE /\
  current = previous.
Proof.
  unfold compareCacheStates_, Cache.NOT_INITIALIZED, Cache.NOT_CACHEABLE.
  destruct (Z.eqb_spec current (-2)) as [H1|H1]; simpl.
  - split; [discriminate | intros (H & _); contradiction].
  - destruct (Z.eqb_spec current (-1)) as [H2|H2]; simpl.
    + split; [discriminate | intros (_ & H & _); contradiction].
    + destruct (Z.eqb_spec current previous) as [H3|H3].
      * split; [intros _; subst previous; repeat split; assumption | reflexivity].
      * split; [discriminate | intros (_ & _ & _ & _ & H); contradiction].
Qed.



Lemma compareCacheStates_hash (s : string) :
  compareCacheStates_ (hashCode s) (hashCode s) = true.
Proof.
  pose proof (hashCode_range s) as H. apply compareCacheStates_true.
  unfold Cache.NOT_INITIALIZED, Cache.NOT_CACHEABLE. repeat split; lia.
Qed.


(** The state of a string is compared equal to itself. *)
Lemma compareCacheStates_same_string (E : Env) (s : string) :
  compareCacheStates_ (computeSurfaceCacheState_ E (Str s))
                      (computeSurfaceCacheState_ E (Str s)) = true.
Proof. simpl. apply compareCacheStates_hash. Qed.

(** ** The surface id convention *)

(** C8, as the code has it. The element id of a surface is the explicit
    [surfaceElementId] of its configuration when that is set (and not
    empty); failing that it is the given id unchanged when the surface
    holds a component ([componentName] set) or the id already starts with
    the id of the component and a dash; and otherwise it is
    [<componentId>-<surfaceId>]. *)
Theorem getSurfaceElementId_convention (E : Env) (surfaceId : string) (config : surface) :
  (forall explicit,
      surfaceElementId config = Some explicit -> explicit <> EmptyString ->
      getSurfaceElementId_ E surfaceId (Some config) = explicit) /\
  (whenTruthy (surfaceElementId config) = None ->
   truthyS (componentName config) = true \/
   (exists rest, surfaceId = env_id E ++ "-" ++ rest) ->
   getSurfaceElementId_ E surfaceId (Some config) = surfaceId) /\
  (whenTruthy (surfaceElementId config) = None ->
   truthyS (componentName config) = false ->
   ~ (exists rest, surfaceId = env_id E ++ "-" ++ rest) ->
   getSurfaceElementId_ E surfaceId (Some config) = env_id E ++ "-" ++ surfaceId).
Proof.
  unfold getSurfaceElementId_. repeat split.
  - intros explicit He Hne. rewrite He. simpl.
    apply String.eqb_neq in Hne. now rewrite Hne.
  - intros -> [Hc|Hp].
    + now rewrite Hc.
    + apply hasComponentPrefix_spec in Hp. rewrite Hp. now rewrite orb_true_r.
  - intros -> Hc Hp. rewrite Hc. simpl.
    destruct (hasComponentPrefix_ E surfaceId) eqn:Hh; [|reflexivity].
    exfalso. apply Hp. now apply hasComponentPrefix_spec.
Qed.

(** The three cases of the convention, on the component [c]. *)
Lemma getSurfaceElementId_convention_witness :
  getSurfaceElementId_ bareEnv "header"
    (Some (mkSurface 0 (Some "top") None Undefined [] false None)) = "top" /\
  getSurfaceElementId_ bareEnv "c-header" (Some emptyConfig) = "c-header" /\
  getSurfaceElementId_ bareEnv "header" (Some emptyConfig) = "c-header".
Proof.
  split; [|split].
  - apply (getSurfaceElementId_convention bareEnv "header"
             (mkSurface 0 (Some "top") None Undefined [] false None));
      [reflexivity | discriminate].
  - apply (getSurfaceElementId_convention bareEnv "c-header" emptyConfig);
      [reflexivity | right; now exists "header"].
  - apply (getSurfaceElementId_convention bareEnv "header" emptyConfig);
      [reflexivity | reflexivity |].
    intros [rest Hrest]. discriminate.
Defined.

(** C8, as stated, fails on a surface that holds a component: its
    configuration gives no [surfaceElementId], its id does not start with
    [c-], and yet its element id is not [c-child]. *)
Lemma getSurfaceElementId_component_counterexample :
  surfaceElementId widgetConfig = None /\
  ~ (exists rest, "child" = env_id bareEnv ++ "-" ++ rest) /\
  getSurfaceElementId_ bareEnv "child" (Some widgetConfig)
    <> env_id bareEnv ++ "-" ++ "child".
Proof.
  split; [reflexivity|]. split.
  - intros [rest Hrest]. discriminate.
  - discriminate.
Qed.

(** ** Expansion of content without placeholders *)

Lemma replaceTokens_literals (f : option string -> M string) (l : list ascii) (st : state) :
  replaceTokens f (map Lit l) st = Ok (string_of_list_ascii l) st.
Proof.
  induction l as [|c l IH]; simpl; [reflexivity|].
  now rewrite bind_unfold, IH.
Qed.

(** C6. For content that is not a string, and for a string that contains
    no match of [SURFACE_REGEX], [replaceSurfacePlaceholders_] returns the
    content unchanged and leaves the component as it is: no surface is
    registered and nothing is appended to [collectedSurfaces_]. *)
Theorem replaceSurfacePlaceholders_plain (E : Env) (fuel : nat) (content : jsval)
        (owner : option string) (st : state) :
  (forall s, content = Str s -> ~ containsToken s) ->
  replaceSurfacePlaceholders_ E fuel content owner st = Ok content st.
Proof.
  intros Hplain. destruct content as [| |s|e]; destruct fuel; try reflexivity.
  all: simpl; rewrite (scan_plain s (Hplain s eq_refl)), bind_unfold,
         replaceTokens_literals, string_of_list_ascii_of_string; reflexivity.
Qed.

(** An element and a plain string go through unchanged. *)
Lemma replaceSurfacePlaceholders_plain_witness :
  replaceSurfacePlaceholders_ bareEnv 0 (Elem "c-s") None constructed
    = Ok (Elem "c-s") constructed /\
  replaceSurfacePlaceholders_ bareEnv 0 (Str "<b>50% off</b>") (Some "c-s") constructed
    = Ok (Str "<b>50% off</b>") constructed.
Proof.
  split.
  - apply (replaceSurfacePlaceholders_plain bareEnv 0 (Elem "c-s") None constructed).
    intros s Hs. discriminate.
  - apply (replaceSurfacePlaceholders_plain bareEnv 0 (Str "<b>50% off</b>")
             (Some "c-s") constructed).
    intros s Hs. injection Hs as <-. apply tokens_plain. reflexivity.
Defined.

(** ** Rendering a surface *)

(** C9. For a surface that holds no component, when the content (the
    [opt_content] argument, or else what the content provider gives) is
    undefined or null, [renderSurfaceContent] does nothing: the component,
    the registries and the calls made to the collaborators are as before,
    and nothing is thrown. *)
Theorem renderSurfaceContent_without_content (E : Env) (fuel : nat) (id : string)
        (opt_content opt_cacheContent : jsval) (st : state) (k : string) (s : surface) :
  getSurface E st id = Some (k, s) ->
  truthyS (componentName s) = false ->
  isDefAndNotNull (resolveContent E id s opt_content) = false ->
  renderSurfaceContent E fuel id opt_content opt_cacheContent st = Ok tt st.
Proof.
  intros Hg Hc Hnull.
  rewrite (renderSurfaceContent_plain E id k fuel st s) by now split.
  cbv zeta. now rewrite Hnull.
Qed.

(** The surface [s] of the component [c], whose provider gives nothing. *)
Lemma renderSurfaceContent_without_content_witness :
  renderSurfaceContent bareEnv 0 "s" Undefined Undefined (withSurface false)
    = Ok tt (withSurface false).
Proof.
  apply (renderSurfaceContent_without_content bareEnv 0 "s" Undefined Undefined
           (withSurface false) "c-s" freshSurface); reflexivity.
Defined.

Section PlainRender.

Variable E : Env.
Variables (id k : string).

Local Abbreviation plain := (plainSurface E id k).



End PlainRender.



(** ** Cache hits across calls and during decoration *)









(** ** Registration of a surface *)

Lemma getSurface_registered (E : Env) (st : state) (key : string) (s : surface) :
  surfaces st !! key = Some s -> exists ks, getSurface E st key = Some ks.
Proof.
  intros H. unfold getSurface, collector_getSurface.
  destruct (surfaces st !! getSurfaceElementId_ E key None); [eauto|].
  rewrite H. eauto.
Qed.

(** [cacheSurfaceRenderAttrs_] returns, and leaves the registry alone. *)
Lemma cacheSurfaceRenderAttrs_total (E : Env) (key : string) (st : state) :
  (exists ks, getSurface E st key = Some ks) ->
  exists st', cacheSurfaceRenderAttrs_ E key st = Ok tt st' /\ surfaces st' = surfaces st.
Proof.
  intros [ks Hg]. unfold cacheSurfaceRenderAttrs_.
  rewrite bind_unfold, (theSurface_found _ _ _ _ Hg). cbv beta iota.
  generalize (renderAttrs (snd ks)). intros attrs. clear Hg.
  revert st. induction attrs as [|a attrs IH]; intros st; simpl.
  - eauto.
  - rewrite bind_assoc, bind_get.
    destruct (surfacesRenderAttrs_ st !! a); unfold emit;
      repeat first [rewrite bind_assoc | rewrite bind_ret | rewrite bind_modify];
      match goal with
      | |- context [forEach ?f attrs ?st0] => destruct (IH st0) as (st' & H1 & H2)
      end;
      exists st'; (split; [exact H1 | rewrite H2; reflexivity]).
Qed.




(** ** Lifecycle *)

Section NeverThrows.

Variable E : Env.

Local Abbreviation quiet := (neverThrows ALREADY_RENDERED).

Lemma quiet_ret {A} (a : A) : quiet (ret a).
Proof. intros st st' H; discriminate. Qed.

Lemma quiet_get : quiet get.
Proof. intros st st' H; discriminate. Qed.

Lemma quiet_modify (f : state -> state) : quiet (modify f).
Proof. intros st st' H; discriminate. Qed.

Lemma quiet_outOfFuel {A} : quiet (@outOfFuel A).
Proof. intros st st' H; discriminate. Qed.

Lemma quiet_TypeError {A} : quiet (@throw A TypeError).
Proof. intros st st' H; discriminate. Qed.

Lemma quiet_UnknownComponent {A} : quiet (@throw A UnknownComponent).
Proof. intros st st' H; discriminate. Qed.

Lemma quiet_bind {A B} (m : M A) (k : A -> M B) :
  quiet m -> (forall a, quiet (k a)) -> quiet (bind m k).
Proof.
  intros Hm Hk st st' H. rewrite bind_unfold in H.
  destruct (m st) as [a st1|e st1|] eqn:Hs.
  - exact (Hk a st1 st' H).
  - apply (Hm st st'). rewrite Hs. now inversion H.
  - discriminate.
Qed.

Lemma quiet_when (c : bool) (m : M unit) : quiet m -> quiet (when c m).
Proof. intros Hm; destruct c; simpl; [exact Hm | apply quiet_ret]. Qed.

Lemma quiet_forEach {A} (f : A -> M unit) (l : list A) :
  (forall a, quiet (f a)) -> quiet (forEach f l).
Proof.
  intros Hf; induction l as [|a l IH]; simpl.
  - apply quiet_ret.
  - apply quiet_bind; [apply Hf | intros _; exact IH].
Qed.

Lemma quiet_theSurface (id : string) : quiet (theSurface E id).
Proof. intros st st' H. unfold theSurface in H. destruct (getSurface E st id); discriminate. Qed.

Lemma quiet_readSurface (k : string) : quiet (readSurface k).
Proof. intros st st' H. unfold readSurface in H. destruct (surfaces st !! k); discriminate. Qed.

Ltac quiet_step :=
  lazymatch goal with
  | |- neverThrows _ (bind _ _) => apply quiet_bind; [|intros ?]
  | |- neverThrows _ (ret _) => apply quiet_ret
  | |- neverThrows _ get => apply quiet_get
  | |- neverThrows _ (modify _) => apply quiet_modify
  | |- neverThrows _ (emit _) => apply quiet_modify
  | |- neverThrows _ (writeSurface _ _) => apply quiet_modify
  | |- neverThrows _ (collector_addSurface _ _) => apply quiet_modify
  | |- neverThrows _ (throw TypeError) => apply quiet_TypeError
  | |- neverThrows _ (throw UnknownComponent) => apply quiet_UnknownComponent
  | |- neverThrows _ outOfFuel => apply quiet_outOfFuel
  | |- neverThrows _ (when _ _) => apply quiet_when
  | |- neverThrows _ (forEach _ _) => apply quiet_forEach; intros ?
  | |- neverThrows _ (theSurface _ _) => apply quiet_theSurface
  | |- neverThrows _ (readSurface _) => apply quiet_readSurface
  | |- neverThrows _ (if ?c then _ else _) => destruct c
  | |- neverThrows _ (match ?x with _ => _ end) => destruct x
  end.

Lemma quiet_addSurface (id : string) (c : option surface) : quiet (addSurface E id c).
Proof.
  unfold addSurface, createSubComponent_, cacheSurfaceRenderAttrs_. repeat quiet_step.
Qed.

Lemma quiet_createPlaceholderSurface_ (id parent : option string) :
  quiet (createPlaceholderSurface_ E id parent).
Proof.
  unfold createPlaceholderSurface_, generateSurfaceElementId_.
  repeat first [apply quiet_addSurface | quiet_step].
Qed.

Lemma quiet_wrapContentIfNecessary (c : jsval) (id tag : string) :
  quiet (wrapContentIfNecessary c id tag).
Proof. unfold wrapContentIfNecessary, checkHasElementTag_. repeat quiet_step. Qed.

Lemma quiet_getSurfaceHtml (id : string) (c : jsval) : quiet (getSurfaceHtml E id c).
Proof.
  unfold getSurfaceHtml, getNonComponentSurfaceHtml.
  repeat first [apply quiet_wrapContentIfNecessary | quiet_step].
Qed.

Lemma quiet_getSurfaceContent_ (id : string) : quiet (getSurfaceContent_ E id).
Proof. unfold getSurfaceContent_. repeat quiet_step. Qed.

Lemma quiet_getSurfaceElement (id : string) : quiet (getSurfaceElement E id).
Proof. unfold getSurfaceElement. repeat quiet_step. Qed.

Lemma quiet_replaceTokens (f : option string -> M string) (l : list segment) :
  (forall id, quiet (f id)) -> quiet (replaceTokens f l).
Proof.
  intros Hf. induction l as [|[c|raw id] l IH]; simpl.
  - apply quiet_ret.
  - repeat quiet_step. exact IH.
  - repeat quiet_step; [apply Hf | exact IH].
Qed.

Lemma quiet_replaceSurfacePlaceholders_ (fuel : nat) (c : jsval) (owner : option string) :
  quiet (replaceSurfacePlaceholders_ E fuel c owner).
Proof.
  revert c owner; induction fuel as [|n IH]; intros c owner;
    destruct c; simpl; try apply quiet_ret.
  - apply quiet_bind; [|intros ?; apply quiet_ret].
    apply quiet_replaceTokens; intros ?; apply quiet_outOfFuel.
  - apply quiet_bind; [|intros ?; apply quiet_ret].
    apply quiet_replaceTokens; intros ?. unfold expandPlaceholder.
    repeat first [apply quiet_createPlaceholderSurface_ | apply quiet_getSurfaceContent_
                 | apply quiet_getSurfaceHtml | apply IH | quiet_step].
Qed.

Lemma quiet_cacheSurfaceContent (id : string) (c : jsval) :
  quiet (cacheSurfaceContent E id c).
Proof. unfold cacheSurfaceContent. repeat quiet_step. Qed.

Lemma quiet_renderSurfaceContent (fuel : nat) (id : string) (oc occ : jsval) :
  quiet (renderSurfaceContent E fuel id oc occ).
Proof.
  revert id oc occ; induction fuel as [|n IH]; intros id oc occ; simpl;
    unfold renderComponentSurface_, cacheAndCompare, replaceSurfaceContent_,
      renderPlaceholderSurfaceContents_, checkHasElementTag_;
    repeat first [apply quiet_getSurfaceContent_ | apply quiet_getSurfaceElement
                 | apply quiet_cacheSurfaceContent | apply quiet_replaceSurfacePlaceholders_
                 | apply quiet_createPlaceholderSurface_ | apply IH | quiet_step].
Qed.

Lemma quiet_updatePlaceholderSurfaces_ (fuel : nat) :
  quiet (updatePlaceholderSurfaces_ E fuel).
Proof.
  unfold updatePlaceholderSurfaces_. apply quiet_bind; [apply quiet_get|]. intros st.
  apply quiet_bind; [|intros ?; apply quiet_modify].
  induction (List.length (collectedSurfaces_ st)) as [|j IH]; simpl.
  - apply quiet_ret.
  - unfold updatePlaceholderSurface_.
    repeat first [apply quiet_renderSurfaceContent | apply quiet_getSurfaceElement
                 | apply quiet_cacheSurfaceContent | apply IH | quiet_step].
Qed.

Lemma quiet_renderSurfacesContent_ (fuel : nat) (l : list string) :
  quiet (renderSurfacesContent_ E fuel l).
Proof.
  unfold renderSurfacesContent_.
  repeat first [apply quiet_renderSurfaceContent | apply quiet_updatePlaceholderSurfaces_
               | quiet_step].
Qed.

Lemma quiet_getElementContent_ : quiet (getElementContent_ E).
Proof. unfold getElementContent_. repeat quiet_step. Qed.

Lemma quiet_attach (fuel : nat) : quiet (attach E fuel).
Proof.
  unfold attach. repeat first [apply quiet_updatePlaceholderSurfaces_ | quiet_step].
Qed.

(** Past its guard, [decorate] does not throw [ALREADY_RENDERED]. *)
Lemma quiet_decorate_body (fuel : nat) :
  quiet (modify (set_decorating true) ;;;
         emit (Hook "decorateInternal") ;;;
         (c <- getElementContent_ E ;; replaceSurfacePlaceholders_ E fuel c None) ;;;
         (st <- get ;; renderSurfacesContent_ E fuel (surfaceIds_ st)) ;;;
         attachInlineListeners_ E ;;;
         syncAttrs_ ;;;
         attach E fuel ;;;
         modify (set_decorating false) ;;;
         modify (set_wasRendered true)).
Proof.
  unfold attachInlineListeners_, syncAttrs_.
  repeat first [apply quiet_getElementContent_ | apply quiet_replaceSurfacePlaceholders_
               | apply quiet_renderSurfacesContent_ | apply quiet_attach | quiet_step].
Qed.

End NeverThrows.

(** What holds of the guards: [render] throws on a component that was
    rendered, [decorate] on a component that is in the document, and both
    leave the component as it is. *)
Lemma render_when_rendered (E : Env) (fuel : nat) (st : state) :
  wasRendered st = true -> render E fuel st = Throw ALREADY_RENDERED st.
Proof. intros H. unfold render. now rewrite bind_get, H. Qed.

Lemma decorate_when_inDocument (E : Env) (fuel : nat) (st : state) :
  inDocument st = true -> decorate E fuel st = Throw ALREADY_RENDERED st.
Proof. intros H. unfold decorate. now rewrite bind_get, H. Qed.

Lemma attach_inDocument (E : Env) (fuel : nat) (st st' : state) :
  attach E fuel st = Ok tt st' ->
  inDocument st' = true /\ wasRendered st' = wasRendered st /\
  decorating_ st' = decorating_ st.
Proof.
  unfold attach. rewrite bind_get. destruct (inDocument st) eqn:Hi; simpl.
  - intros H; inversion H; subst. auto.
  - intros H. apply bind_Ok in H as (? & st1 & H1 & H). apply modify_Ok in H1.
    apply bind_Ok in H as (? & st2 & H2 & H). apply modify_Ok in H2.
    apply bind_Ok in H as (? & st3 & H3 & H). apply modify_Ok in H.
    assert (Hf : sameFlags st2 st3).
    { destruct (negb (wasRendered st)); simpl in H3.
      - eapply updatePlaceholderSurfaces_sameFlags, H3.
      - inversion H3; subst. apply sameFlags_refl. }
    destruct Hf as (Hd & Hin & Hw). subst st' st2 st1. simpl in *.
    repeat split; assumption.
Qed.

(** A call to [render] or to [decorate] that returns leaves the component
    rendered and in the document. *)
Lemma render_completes (E : Env) (fuel : nat) (st st' : state) :
  render E fuel st = Ok tt st' -> wasRendered st' = true /\ inDocument st' = true.
Proof.
  unfold render. rewrite bind_get. destruct (wasRendered st); [discriminate|].
  intros H.
  apply bind_Ok in H as (? & st1 & _ & H). apply bind_Ok in H as (? & st2 & _ & H).
  apply bind_Ok in H as (? & st3 & _ & H). apply bind_Ok in H as (? & st4 & _ & H).
  apply bind_Ok in H as ([] & st5 & H5 & H). apply modify_Ok in H. subst st'.
  apply attach_inDocument in H5 as (Hi & _). simpl. auto.
Qed.

Lemma decorate_completes (E : Env) (fuel : nat) (st st' : state) :
  decorate E fuel st = Ok tt st' -> wasRendered st' = true /\ inDocument st' = true.
Proof.
  unfold decorate. rewrite bind_get. destruct (inDocument st); [discriminate|].
  intros H.
  apply bind_Ok in H as (? & st1 & _ & H). apply bind_Ok in H as (? & st2 & _ & H).
  apply bind_Ok in H as (? & st3 & _ & H). apply bind_Ok in H as (? & st4 & _ & H).
  apply bind_Ok in H as (? & st5 & _ & H). apply bind_Ok in H as (? & st6 & _ & H).
  apply bind_Ok in H as ([] & st7 & H7 & H).
  apply bind_Ok in H as (? & st8 & H8 & H). apply modify_Ok in H, H8. subst st' st8.
  apply attach_inDocument in H7 as (Hi & _). simpl. auto.
Qed.

(** [detach] returns, and takes the component out of the document without
    forgetting that it was rendered. *)
Lemma detach_returns (st : state) :
  exists st', detach st = Ok tt st' /\ inDocument st' = false /\
              wasRendered st' = wasRendered st.
Proof.
  unfold detach. rewrite bind_get. destruct (inDocument st) eqn:Hi; simpl.
  - eexists. split; [reflexivity|]. simpl. auto.
  - eexists. split; [reflexivity|]. simpl. auto.
Qed.

(** On a component that was rendered, [attach] returns. *)
Lemma attach_returns (E : Env) (fuel : nat) (st : state) :
  wasRendered st = true ->
  exists st', attach E fuel st = Ok tt st' /\ inDocument st' = true /\
              wasRendered st' = true.
Proof.
  intros Hw. unfold attach. rewrite bind_get, Hw.
  destruct (inDocument st) eqn:Hi; simpl.
  - eexists. split; [reflexivity|]. auto.
  - eexists. split; [reflexivity|]. simpl. auto.
Qed.

(** C1, where the code departs from it. The guard of [decorate] looks at
    [inDocument], not at [wasRendered]: on a component that was rendered and
    is detached, [decorate] does not throw [ALREADY_RENDERED], it runs
    again. *)
Theorem decorate_guard_misses_detached (E : Env) (fuel : nat) (st : state) :
  wasRendered st = true ->
  inDocument st = false ->
  forall st', decorate E fuel st <> Throw ALREADY_RENDERED st'.
Proof.
  intros _ Hi st'. unfold decorate. rewrite bind_get, Hi.
  apply quiet_decorate_body.
Qed.

(** [render()], then [detach()], then [decorate()] on a component without
    surfaces: the third call returns, and the component is decorated over
    what [render] produced. *)
Lemma decorate_guard_misses_detached_witness :
  exists st1 st2 st3,
    render bareEnv 0 constructed = Ok tt st1 /\
    detach st1 = Ok tt st2 /\
    wasRendered st2 = true /\ inDocument st2 = false /\
    decorate bareEnv 0 st2 = Ok tt st3 /\
    decorate bareEnv 0 st2 <> Throw ALREADY_RENDERED st2.
Proof.
  eexists _, _, _.
  split; [vm_compute; reflexivity|].
  split; [vm_compute; reflexivity|].
  split; [reflexivity|]. split; [reflexivity|].
  split; [vm_compute; reflexivity|].
  apply (decorate_guard_misses_detached bareEnv 0); reflexivity.
Defined.

(** ** The order of the collected surfaces *)



(** * Further properties *)

(** ** Surface ids and placeholder texts *)

Lemma substring_app_skip (p r : string) (m : nat) :
  substring (String.length p) m (p ++ r) = substring 0 m r.
Proof. induction p as [|a p IH]; simpl; [reflexivity | exact IH]. Qed.

Lemma substring_all (r : string) : substring 0 (String.length r) r = r.
Proof. induction r as [|a r IH]; simpl; [reflexivity | now rewrite IH]. Qed.

Lemma hasComponentPrefix_prefixed (E : Env) (surfaceId : string) :
  hasComponentPrefix_ E (prefixSurfaceId_ E surfaceId) = true.
Proof. apply hasComponentPrefix_spec. now exists surfaceId. Qed.

Lemma getSurfaceElementId_prefixed (E : Env) (surfaceId : string) :
  hasComponentPrefix_ E (getSurfaceElementId_ E surfaceId None) = true.
Proof.
  unfold getSurfaceElementId_. simpl.
  destruct (hasComponentPrefix_ E surfaceId) eqn:H; [exact H|].
  apply hasComponentPrefix_prefixed.
Qed.

Lemma getSurfaceId_prefixed (E : Env) (surfaceId : string) (s : surface) :
  truthyS (componentName s) = false ->
  getSurfaceId_ E (prefixSurfaceId_ E surfaceId) s = surfaceId.
Proof.
  intros Hc. unfold getSurfaceId_.
  rewrite Hc, hasComponentPrefix_prefixed. simpl.
  unfold prefixSurfaceId_. rewrite <- append_assoc.
  replace (String.length (env_id E) + 1)%nat with (String.length (env_id E ++ "-"))
    by (rewrite length_append; reflexivity).
  rewrite substring_app_skip, (length_append (env_id E ++ "-")).
  replace (String.length (env_id E ++ "-") + String.length surfaceId
           - String.length (env_id E ++ "-"))%nat
    with (String.length surfaceId) by lia.
  apply substring_all.
Qed.

(** X1. For a surface that holds no component, taking the prefix off a
    prefixed id gives the id back; the element id of an element id is that
    element id; and the surface id of the element id of [surfaceId] is
    [surfaceId], unless [surfaceId] itself starts with the id of the
    component and a dash. *)
Theorem surface_id_round_trip (E : Env) (surfaceId : string) (s : surface) :
  truthyS (componentName s) = false ->
  getSurfaceId_ E (prefixSurfaceId_ E surfaceId) s = surfaceId /\
  getSurfaceElementId_ E (getSurfaceElementId_ E surfaceId None) None
    = getSurfaceElementId_ E surfaceId None /\
  (hasComponentPrefix_ E surfaceId = false ->
   getSurfaceId_ E (getSurfaceElementId_ E surfaceId None) s = surfaceId).
Proof.
  intros Hc. split; [now apply getSurfaceId_prefixed|]. split.
  - pose proof (getSurfaceElementId_prefixed E surfaceId) as Hp.
    unfold getSurfaceElementId_ at 1. simpl. now rewrite Hp.
  - intros Hn. unfold getSurfaceElementId_. simpl. rewrite Hn.
    now apply getSurfaceId_prefixed.
Qed.

(** The surface [header] of the component [c]. *)
Lemma surface_id_round_trip_witness :
  getSurfaceId_ bareEnv "c-header" emptyConfig = "header" /\
  getSurfaceElementId_ bareEnv "c-header" None = "c-header" /\
  getSurfaceId_ bareEnv (getSurfaceElementId_ bareEnv "header" None) emptyConfig = "header".
Proof.
  destruct (surface_id_round_trip bareEnv "header" emptyConfig eq_refl) as (H1 & H2 & H3).
  split; [exact H1|]. split; [exact H2 | apply H3; reflexivity].
Defined.

Lemma scanFrom_skip_all (s : string) (skip : nat) :
  (String.length s <= skip)%nat -> scanFrom skip s = [].
Proof.
  revert skip. induction s as [|c s IH]; intros skip H; simpl; [reflexivity|].
  destruct skip as [|k]; simpl in H; [lia|]. apply IH. lia.
Qed.

(** A string that is one match scans to one token. *)
Lemma scan_token (m : string) (id : option string) :
  TokenMatch m id -> scan m = [Tok m id].
Proof.
  intros Hm. destruct (tokenMatch_nonempty _ _ Hm) as (c & m' & ->).
  pose proof (matchHere_complete _ EmptyString _ Hm) as Hc.
  rewrite append_nil_r in Hc. unfold scan. cbn [scanFrom]. rewrite Hc.
  rewrite substring_all. f_equal. apply scanFrom_skip_all. simpl. lia.
Qed.

(** The ids the scan captures are not empty and hold no [~] and no [:]. *)
Lemma scanFrom_ids (skip : nat) (s x : string) :
  In (Some x)
     (flat_map (fun g => match g with Tok _ id => [id] | Lit _ => [] end) (scanFrom skip s)) ->
  x <> EmptyString /\ forallb idChar (list_ascii_of_string x) = true.
Proof.
  revert skip. induction s as [|c s IH]; intros skip; simpl; [contradiction|].
  destruct skip as [|k]; [|apply IH].
  destruct (matchHere (String c s)) as [[id len]|] eqn:Hm; simpl.
  - intros [Hx|Hin]; [|exact (IH _ Hin)]. subst id.
    apply matchHere_sound in Hm as (m & post & _ & Hm & _).
    inversion Hm; subst. now split.
  - apply IH.
Qed.

(** X2. The text [buildPlaceholder] returns for an id is a placeholder for
    that id exactly when the id is not empty and holds no [~] and no [:];
    the text for no id is the anonymous placeholder. *)
Theorem buildPlaceholder_round_trip (E : Env) (id : string) (opt_data : option surface)
        (st st' : state) (text : string) :
  buildPlaceholder E (Some id) opt_data st = Ok text st' ->
  (tokens text = [Some id] <->
   id <> EmptyString /\ forallb idChar (list_ascii_of_string id) = true) /\
  (id = EmptyString -> tokens text = [None]) /\
  tokens (placeholderText None) = [None].
Proof.
  intros H. unfold buildPlaceholder in H.
  apply bind_Ok in H as (u & st1 & _ & H). apply ret_Ok in H as [-> _].
  split; [|split].
  - split.
    + intros Ht. apply (scanFrom_ids 0 (placeholderText (Some id)) id).
      fold (scan (placeholderText (Some id))). fold (tokens (placeholderText (Some id))).
      rewrite Ht. now left.
    + intros [Hne Hall]. unfold tokens, placeholderText. simpl whenTruthy.
      apply String.eqb_neq in Hne. rewrite Hne.
      rewrite (scan_token ("%%%%~s" ++ ("-" ++ id) ++ "~%%%%") (Some id)); [reflexivity|].
      rewrite append_assoc. apply TokenWithId; [now apply String.eqb_neq | exact Hall].
  - intros ->. reflexivity.
  - reflexivity.
Qed.

(** The id [header] round trips; the id [a:b] does not. *)
Lemma buildPlaceholder_round_trip_witness :
  tokens (placeholderText (Some "header")) = [Some "header"] /\
  tokens (placeholderText (Some "a:b")) <> [Some "a:b"].
Proof.
  split.
  - apply (buildPlaceholder_round_trip bareEnv "header" None constructed constructed
             (placeholderText (Some "header")) eq_refl).
    split; [discriminate | reflexivity].
  - intros H.
    apply (buildPlaceholder_round_trip bareEnv "a:b" None constructed constructed
             (placeholderText (Some "a:b")) eq_refl) in H as [_ H].
    discriminate.
Defined.

(** ** Wrapping content *)

Lemma index_found (pre pat post : string) :
  pat <> EmptyString -> index 0 pat (pre ++ pat ++ post) <> None.
Proof.
  intros Hne Hnone.
  apply (index_correct3 0 (String.length pre) _ _ Hnone Hne); [lia|].
  rewrite substring_app_skip. apply substring_prefix. now exists post.
Qed.

(** X3. [wrapContentIfNecessary] leaves the component alone, gives content
    that holds an element tag with the id, and wrapping that content again
    changes nothing. *)
Theorem wrapContentIfNecessary_idempotent (content : jsval) (id tag : string)
        (st st' : state) (wrapped : jsval) :
  wrapContentIfNecessary content id tag st = Ok wrapped st' ->
  st' = st /\
  checkHasElementTag_ wrapped id st = Ok true st /\
  wrapContentIfNecessary wrapped id tag st = Ok wrapped st.
Proof.
  intros H.
  assert (Hhas : st' = st /\ checkHasElementTag_ wrapped id st = Ok true st).
  { unfold wrapContentIfNecessary in H.
    apply bind_Ok in H as (has & st1 & H1 & H).
    assert (st1 = st) as ->.
    { destruct content; simpl in H1; inversion H1; reflexivity. }
    destruct has.
    - apply ret_Ok in H as [-> ->]. now split.
    - apply ret_Ok in H as [-> ->]. split; [reflexivity|].
      unfold checkHasElementTag_, ret. do 2 f_equal.
      replace ("<" ++ tag ++ " id=" ++ DQUOTE ++ id ++ DQUOTE ++ ">" ++ toString content
               ++ "</" ++ tag ++ ">")
        with (("<" ++ tag) ++ (" id=" ++ DQUOTE ++ id ++ DQUOTE)
              ++ (">" ++ toString content ++ "</" ++ tag ++ ">"))
        by (now rewrite !append_assoc).
      destruct (index 0 _ _) eqn:Hi; [reflexivity|]. exfalso. revert Hi.
      apply index_found. discriminate. }
  destruct Hhas as [-> Hhas]. split; [reflexivity|]. split; [exact Hhas|].
  unfold wrapContentIfNecessary. now rewrite bind_unfold, Hhas.
Qed.

(** Plain text wrapped for the surface [c-s]. *)
Lemma wrapContentIfNecessary_idempotent_witness :
  wrapContentIfNecessary (Str (surfaceMarkup "Hi")) "c-s" "div" constructed
    = Ok (Str (surfaceMarkup "Hi")) constructed.
Proof.
  apply (wrapContentIfNecessary_idempotent (Str "Hi") "c-s" "div" constructed constructed
           (Str (surfaceMarkup "Hi")) eq_refl).
Defined.

(** ** More of the lifecycle *)

Ltac quiet_more :=
  lazymatch goal with
  | |- neverThrows _ (bind _ _) => apply quiet_bind; [|intros ?]
  | |- neverThrows _ (ret _) => apply quiet_ret
  | |- neverThrows _ get => apply quiet_get
  | |- neverThrows _ (modify _) => apply quiet_modify
  | |- neverThrows _ (emit _) => apply quiet_modify
  | |- neverThrows _ (when _ _) => apply quiet_when
  | |- neverThrows _ (replaceSurfacePlaceholders_ _ _ _ _) =>
      apply quiet_replaceSurfacePlaceholders_
  | |- neverThrows _ (renderSurfacesContent_ _ _ _) => apply quiet_renderSurfacesContent_
  | |- neverThrows _ (getElementContent_ _) => apply quiet_getElementContent_
  | |- neverThrows _ (attach _ _) => apply quiet_attach
  end.

(** Past its guard, [render] does not throw [ALREADY_RENDERED]. *)
Lemma quiet_render_body (E : Env) (fuel : nat) :
  neverThrows ALREADY_RENDERED
    (renderInternal E fuel ;;;
     (st <- get ;; renderSurfacesContent_ E fuel (surfaceIds_ st)) ;;;
     attachInlineListeners_ E ;;;
     syncAttrs_ ;;;
     attach E fuel ;;;
     modify (set_wasRendered true)).
Proof.
  unfold renderInternal, getElementExtendedContent, attachInlineListeners_, syncAttrs_.
  repeat quiet_more.
Qed.

(** X4. [render] throws [ALREADY_RENDERED] exactly on a component that was
    rendered, and then leaves it as it is: whatever else goes wrong in a
    first rendering, it is not reported as a second one. *)
Theorem render_throws_iff_rendered (E : Env) (fuel : nat) (st st' : state) :
  render E fuel st = Throw ALREADY_RENDERED st' <-> wasRendered st = true /\ st' = st.
Proof.
  split.
  - unfold render. rewrite bind_get. destruct (wasRendered st) eqn:Hw.
    + intros H. inversion H. now split.
    + intros H. exfalso. exact (quiet_render_body E fuel st st' H).
  - intros [Hw ->]. now apply render_when_rendered.
Qed.

(** What [attach] and [detach] do to a component that was rendered. *)
Lemma attach_rendered (E : Env) (fuel : nat) (st : state) :
  wasRendered st = true ->
  exists st', attach E fuel st = Ok tt st' /\ inDocument st' = true /\
              wasRendered st' = true /\ decorating_ st' = decorating_ st /\
              surfaces st' = surfaces st /\
              collectedSurfaces_ st' = collectedSurfaces_ st /\
              surfaceIds_ st' = surfaceIds_ st /\ components st' = components st.
Proof.
  intros Hw. unfold attach. rewrite bind_get, Hw.
  destruct (inDocument st) eqn:Hi; simpl.
  - eexists. split; [reflexivity|]. auto 10.
  - eexists. split; [reflexivity|]. simpl. auto 10.
Qed.

Lemma detach_frame (st : state) :
  exists st', detach st = Ok tt st' /\ inDocument st' = false /\
              wasRendered st' = wasRendered st /\ decorating_ st' = decorating_ st /\
              surfaces st' = surfaces st /\
              collectedSurfaces_ st' = collectedSurfaces_ st /\
              surfaceIds_ st' = surfaceIds_ st /\ components st' = components st.
Proof.
  unfold detach. rewrite bind_get. destruct (inDocument st) eqn:Hi; simpl.
  - eexists. split; [reflexivity|]. simpl. auto 10.
  - eexists. split; [reflexivity|]. simpl. auto 10.
Qed.

(** X5. A component that was rendered can be attached and detached any
    number of times, in any order: every call returns, the component is in
    the document exactly if the last call was [attach], it stays rendered,
    its surfaces, their records and its nested components stay as they are,
    and nothing is collected. *)
Theorem attach_detach_any_order (E : Env) (fuel : nat) (calls : list toggle) (st : state) :
  wasRendered st = true ->
  exists st',
    forEach (runToggle E fuel) calls st = Ok tt st' /\
    inDocument st' = afterToggles (inDocument st) calls /\
    wasRendered st' = true /\
    decorating_ st' = decorating_ st /\
    surfaces st' = surfaces st /\
    surfaceIds_ st' = surfaceIds_ st /\
    components st' = components st /\
    collectedSurfaces_ st' = collectedSurfaces_ st.
Proof.
  revert st. induction calls as [|t calls IH]; intros st Hw.
  - exists st. simpl. auto 10.
  - assert (Hstep : exists st1, runToggle E fuel t st = Ok tt st1 /\
                      inDocument st1 = (match t with Attach => true | Detach => false end) /\
                      wasRendered st1 = true /\ decorating_ st1 = decorating_ st /\
                      surfaces st1 = surfaces st /\
                      collectedSurfaces_ st1 = collectedSurfaces_ st /\
                      surfaceIds_ st1 = surfaceIds_ st /\ components st1 = components st).
    { destruct t; simpl.
      - apply attach_rendered, Hw.
      - destruct (detach_frame st) as (st1 & H & Hi & Hw1 & Hrest).
        exists st1. rewrite Hw1, Hw in *. auto. }
    destruct Hstep as (st1 & H1 & Hi1 & Hw1 & Hd1 & Hs1 & Hc1 & Hk1 & Hn1).
    destruct (IH st1 Hw1) as (st' & H & Hi & Hw' & Hd & Hs & Hk & Hn & Hc).
    exists st'. cbn [forEach]. rewrite bind_unfold, H1. cbv beta iota.
    split; [exact H|]. cbn [afterToggles fold_left].
    fold (afterToggles (match t with Attach => true | Detach => false end) calls).
    rewrite <- Hi1. repeat split; congruence.
Qed.

(** A component is rendered, then detached, attached, attached and
    detached. *)
Lemma attach_detach_any_order_witness :
  exists st1 st2,
    render bareEnv 0 constructed = Ok tt st1 /\
    forEach (runToggle bareEnv 0) [Detach; Attach; Attach; Detach] st1 = Ok tt st2 /\
    inDocument st2 = false /\ wasRendered st2 = true.
Proof.
  eexists (match render bareEnv 0 constructed with Ok _ s => s | _ => constructed end).
  destruct (attach_detach_any_order bareEnv 0 [Detach; Attach; Attach; Detach]
              (match render bareEnv 0 constructed with Ok _ s => s | _ => constructed end)
              eq_refl) as (st2 & H & Hi & Hw & _).
  exists st2. split; [vm_compute; reflexivity|]. split; [exact H|].
  split; [exact Hi | exact Hw].
Defined.

Lemma updatePlaceholderSurfaces_empties (E : Env) (fuel : nat) (st st' : state) (a : unit) :
  updatePlaceholderSurfaces_ E fuel st = Ok a st' -> collectedSurfaces_ st' = [].
Proof.
  unfold updatePlaceholderSurfaces_. rewrite bind_get. intros H.
  apply bind_Ok in H as (? & st1 & _ & H). apply modify_Ok in H. now subst st'.
Qed.

Lemma renderInternal_collectedGrows E fuel : keeps collectedGrows (renderInternal E fuel).
Proof. apply keeps_renderInternal; frame. Qed.

Lemma attachInlineListeners_collectedGrows E : keeps collectedGrows (attachInlineListeners_ E).
Proof. apply keeps_attachInlineListeners_; frame. Qed.

(** The loop of [renderSurfacesContent_] keeps what rendering a surface
    keeps. *)
Lemma keeps_renderEach (E : Env) (R : state -> state -> Prop) (fuel : nat) (l : list string) :
  (forall st, R st st) -> (forall a b c, R a b -> R b c -> R a c) ->
  (forall id, keeps R (renderSurfaceContent E fuel id Undefined Undefined)) ->
  keeps R (forEach
             (fun surfaceElementId =>
                ks <- theSurface E surfaceElementId ;;
                when (negb (handled (snd ks)))
                     (renderSurfaceContent E fuel surfaceElementId Undefined Undefined))
             l).
Proof.
  intros Hrefl Htrans Hr. apply keeps_forEach; [exact Hrefl | exact Htrans |]. intros key.
  apply keeps_bind; [exact Htrans | apply keeps_theSurface, Hrefl |].
  intros ks. apply keeps_when; [exact Hrefl | apply Hr].
Qed.

(** X6. A first [render] that returns has consumed every surface it
    collected if the component was not in the document. On a component that
    [attach] had put in the document before, nothing collected is consumed:
    [render] relies on [attach] for that, and [attach] does nothing then. *)
Theorem render_consumes_collected (E : Env) (fuel : nat) (st st' : state) :
  render E fuel st = Ok tt st' ->
  (inDocument st = false -> collectedSurfaces_ st' = []) /\
  (inDocument st = true -> collectedGrows st st').
Proof.
  unfold render. rewrite bind_get. destruct (wasRendered st) eqn:Hw; [discriminate|].
  intros H.
  apply bind_Ok in H as (? & st1 & H1 & H).
  apply bind_Ok in H as (? & st2 & H2 & H). rewrite bind_get in H2.
  apply bind_Ok in H as (? & st3 & H3 & H).
  apply bind_Ok in H as (? & st4 & H4 & H). apply modify_Ok in H4.
  apply bind_Ok in H as ([] & st5 & H5 & H). apply modify_Ok in H.
  pose proof (renderInternal_sameFlags _ _ _ _ _ H1) as F1.
  pose proof (renderSurfacesContent_sameFlags _ _ _ _ _ _ H2) as F2.
  pose proof (attachInlineListeners_sameFlags _ _ _ _ H3) as F3.
  destruct F1 as (_ & Fi1 & Fw1), F2 as (_ & Fi2 & Fw2), F3 as (_ & Fi3 & Fw3).
  assert (Hi4 : inDocument st4 = inDocument st) by (subst st4; simpl; congruence).
  assert (Hw4 : wasRendered st4 = false) by (subst st4; simpl; congruence).
  split; intros Hi.
  - unfold attach in H5. rewrite bind_get, Hi4, Hi, Hw4 in H5. simpl in H5.
    apply bind_Ok in H5 as (? & sa & Ha & H5). apply modify_Ok in Ha.
    apply bind_Ok in H5 as (? & sb & Hb & H5). apply modify_Ok in Hb.
    apply bind_Ok in H5 as (? & sc & Hc & H5). apply modify_Ok in H5.
    apply updatePlaceholderSurfaces_empties in Hc.
    subst st' st5. simpl. exact Hc.
  - unfold attach in H5. rewrite bind_get, Hi4, Hi in H5. simpl in H5.
    inversion H5; subst st5. clear H5.
    assert (G1 : collectedGrows st st1) by exact (renderInternal_collectedGrows _ _ _ _ _ H1).
    assert (G2 : collectedGrows st1 st2).
    { unfold renderSurfacesContent_ in H2.
      apply bind_Ok in H2 as (? & sa & Ha & H2). apply modify_Ok in Ha.
      apply bind_Ok in H2 as (? & sb & Hb & H2). rewrite bind_get in H2.
      assert (Gb : collectedGrows sa sb).
      { revert Hb. apply keeps_renderEach; [frame | frame |].
        intros key. apply renderSurfaceContent_collectedGrows. }
      assert (Hwb : wasRendered sb = false).
      { assert (Fb : sameFlags sa sb).
        { revert Hb. apply keeps_renderEach; [frame | frame |].
          intros key. apply renderSurfaceContent_sameFlags. }
        destruct Fb as (_ & _ & Fb). subst sa. simpl in Fb. congruence. }
      rewrite Hwb in H2. simpl in H2. inversion H2; subst st2.
      subst sa. destruct Gb as [l Gb]. exists l. exact Gb. }
    assert (G3 : collectedGrows st2 st3) by exact (attachInlineListeners_collectedGrows _ _ _ _ H3).
    destruct G1 as [l1 G1], G2 as [l2 G2], G3 as [l3 G3].
    exists (l1 ++ l2 ++ l3)%list. subst st' st4. simpl.
    rewrite G3, G2, G1, <- !app_assoc. reflexivity.
Qed.

(** A component whose content holds the placeholder of the surface
    [header]: rendered from scratch nothing stays collected; rendered after
    an [attach], the entry of [header] stays. *)
Lemma render_consumes_collected_witness :
  let E := exampleEnv (Str "<p>%%%%~s-header~%%%%</p>")
                      (fun _ => Str "Hi") (fun _ => EmptyString) in
  (exists st', render E 3 constructed = Ok tt st' /\ collectedSurfaces_ st' = []) /\
  (exists st1 st', attach E 3 constructed = Ok tt st1 /\ render E 3 st1 = Ok tt st' /\
                   collectedGrows st1 st' /\
                   List.length (collectedSurfaces_ st') = 1%nat).
Proof.
  intros E. split.
  - eexists. split; [vm_compute; reflexivity|].
    eapply (render_consumes_collected E 3 constructed); [vm_compute|]; reflexivity.
  - eexists _, _. split; [vm_compute; reflexivity|].
    split; [vm_compute; reflexivity|].
    split; [|vm_compute; reflexivity].
    eapply (render_consumes_collected E 3); [vm_compute|]; reflexivity.
Defined.

(** X7. [attach] is idempotent: after a call that returned, another call
    changes nothing. A second [detach] in a row only detaches the listeners
    again. *)
Theorem attach_idempotent (E : Env) (fuel : nat) (st st' : state) :
  attach E fuel st = Ok tt st' ->
  attach E fuel st' = Ok tt st' /\
  (forall st1 st2, detach st' = Ok tt st1 -> detach st1 = Ok tt st2 ->
                   st2 = set_trace (trace st1 ++ [DetachAllListeners]) st1).
Proof.
  intros H. apply attach_inDocument in H as (Hi & _). split.
  - unfold attach. now rewrite bind_get, Hi.
  - intros st1 st2 H1 H2.
    destruct (detach_frame st') as (st1' & H1' & Hi1 & _).
    rewrite H1 in H1'. inversion H1'; subst st1'.
    unfold detach in H2. rewrite bind_get, Hi1 in H2. simpl in H2.
    inversion H2. reflexivity.
Qed.

Lemma attach_idempotent_witness :
  exists st', attach bareEnv 0 constructed = Ok tt st' /\ attach bareEnv 0 st' = Ok tt st'.
Proof.
  eexists. split; [vm_compute; reflexivity|].
  apply (attach_idempotent bareEnv 0 constructed); vm_compute; reflexivity.
Defined.

(** ** Surfaces that are not registered, and surfaces taken out *)

Lemma getSurface_ext (E : Env) (st st' : state) (id : string) :
  surfaces st' = surfaces st -> getSurface E st' id = getSurface E st id.
Proof. intros H. unfold getSurface, collector_getSurface. now rewrite H. Qed.

Lemma theSurface_missing (E : Env) (id : string) (st : state) :
  getSurface E st id = None -> theSurface E id st = Throw TypeError st.
Proof. intros H. unfold theSurface. now rewrite H. Qed.

(** X8. What a surface id that is not registered does to the methods that
    take one: rendering its content, caching content for it, asking for its
    content or its markup end in a [TypeError] and leave the component as it
    is; asking for its element gives nothing. *)
Theorem unregistered_surface (E : Env) (fuel : nat) (id : string) (c cc : jsval) (st : state) :
  getSurface E st id = None ->
  renderSurfaceContent E fuel id c cc st = Throw TypeError st /\
  cacheSurfaceContent E id c st = Throw TypeError st /\
  getSurfaceContent_ E id st = Throw TypeError st /\
  getSurfaceHtml E id c st = Throw TypeError st /\
  getSurfaceElement E id st = Ok None st.
Proof.
  intros H. pose proof (theSurface_missing E id st H) as Ht.
  repeat split.
  - destruct fuel; simpl; now rewrite bind_unfold, Ht.
  - unfold cacheSurfaceContent. now rewrite bind_unfold, Ht.
  - unfold getSurfaceContent_. now rewrite bind_unfold, Ht.
  - unfold getSurfaceHtml. now rewrite bind_unfold, Ht.
  - unfold getSurfaceElement. now rewrite bind_get, H.
Qed.

(** No surface is registered on a component just constructed. *)
Lemma unregistered_surface_witness :
  renderSurfaceContent bareEnv 1 "header" (Str "Hi") Undefined constructed
    = Throw TypeError constructed.
Proof.
  apply (unregistered_surface bareEnv 1 "header" (Str "Hi") Undefined constructed eq_refl).
Defined.



Lemma existsb_eqb_In (k : string) (l : list string) :
  existsb (String.eqb k) l = true <-> In k l.
Proof.
  rewrite existsb_exists. split.
  - intros (x & Hin & Hx). apply String.eqb_eq in Hx. now subst.
  - intros Hin. exists k. split; [exact Hin | apply String.eqb_refl].
Qed.

(** Where a key of [surfaceIds_] has no record, [getSurfaces] ends in a
    [TypeError]. *)
Lemma getSurfaces_loop_throws (E : Env) (keys : list string) (acc : gmap string surface)
      (st : state) :
  (exists key, In key keys /\ surfaces st !! key = None) ->
  getSurfaces_loop E keys acc st = Throw TypeError st.
Proof.
  revert acc. induction keys as [|a keys IH]; intros acc (key & Hin & Hnone).
  - destruct Hin.
  - cbn [getSurfaces_loop]. rewrite bind_get. unfold collector_getSurface.
    destruct (surfaces st !! a) as [s|] eqn:Ha; [|reflexivity].
    apply IH. exists key. split; [|exact Hnone].
    destruct Hin as [->|Hin]; [congruence | exact Hin].
Qed.

Lemma getSurfaces_throws (E : Env) (st : state) (key : string) :
  In key (surfaceIds_ st) -> surfaces st !! key = None ->
  getSurfaces E st = Throw TypeError st.
Proof.
  intros Hin Hnone. unfold getSurfaces. rewrite bind_get.
  apply getSurfaces_loop_throws. eauto.
Qed.

Lemma renderSurfacesContent_stale (E : Env) (fuel : nat) (k : string) (l : list string)
      (st : state) :
  getSurface E st k = None ->
  renderSurfacesContent_ E fuel (k :: l) st = Throw TypeError (set_generatedIdCount ∅ st).
Proof.
  intros Hg. unfold renderSurfacesContent_. rewrite bind_modify. cbn [forEach].
  rewrite !bind_assoc, bind_unfold, theSurface_missing; [reflexivity|].
  rewrite <- Hg. now apply getSurface_ext.
Qed.

Lemma getSurface_prefixed_None (E : Env) (st : state) (k : string) :
  hasComponentPrefix_ E k = true -> surfaces st !! k = None -> getSurface E st k = None.
Proof.
  intros Hp Hnone. unfold getSurface, collector_getSurface, getSurfaceElementId_. simpl.
  rewrite Hp. now rewrite Hnone.
Qed.

(** X10. [removeSurface] on a registered surface without a component
    deletes its record and leaves its element id among the keys of
    [surfaceIds_]. The walks over those keys then meet a key without a
    record: [getSurfaces] ends in a [TypeError], and so does
    [renderSurfacesContent_] when it reaches the key. *)
Theorem removeSurface_leaves_key (E : Env) (id : string) (s : surface) (st : state) :
  surfaces st !! getSurfaceElementId_ E id None = Some s ->
  truthyS (componentName s) = false ->
  whenTruthy (surfaceElementId s) = None ->
  In (getSurfaceElementId_ E id None) (surfaceIds_ st) ->
  exists removed st',
    removeSurface E id st = Ok removed st' /\
    surfaces st' = delete (getSurfaceElementId_ E id None) (surfaces st) /\
    surfaceIds_ st' = surfaceIds_ st /\
    getSurface E st' (getSurfaceElementId_ E id None) = None /\
    getSurfaces E st' = Throw TypeError st' /\
    forall fuel l,
      renderSurfacesContent_ E fuel (getSurfaceElementId_ E id None :: l) st'
      = Throw TypeError (set_generatedIdCount ∅ st').
Proof.
  set (k := getSurfaceElementId_ E id None). intros Hk Hc Hx Hin.
  assert (Hg : getSurface E st id = Some (k, s)).
  { unfold getSurface, collector_getSurface. fold k. now rewrite Hk. }
  assert (Hid : forall s', surfaceElementId s' = surfaceElementId s ->
                           componentName s' = componentName s ->
                           getSurfaceElementId_ E id (Some s') = k).
  { intros s' H1 H2. unfold k, getSurfaceElementId_. rewrite H1, H2, Hx, Hc. reflexivity. }
  assert (Hel : exists e st1 s1,
             getSurfaceElement E id st = Ok (Some e) st1 /\
             surfaces st1 = <[k := s1]> (surfaces st) /\
             surfaceElementId s1 = surfaceElementId s /\
             componentName s1 = componentName s /\
             surfaceIds_ st1 = surfaceIds_ st).
  { unfold getSurfaceElement. rewrite bind_get, Hg.
    destruct (element s) as [e|] eqn:He.
    - exists e, st, s. split; [reflexivity|]. split; [|auto].
      symmetry. now apply insert_id.
    - rewrite Hc. eexists _, _, (set_element _ s). split; [reflexivity|].
      split; [|auto]. simpl. apply map_eq. intros j. rewrite lookup_alter.
      destruct (decide (k = j)) as [<-|Hne].
      + now rewrite lookup_insert_eq, Hk.
      + now rewrite lookup_insert_ne. }
  destruct Hel as (e & st1 & s1 & H1 & Hs1 & Hx1 & Hc1 & Hi1).
  assert (Hg1 : getSurface E st1 id = Some (k, s1)).
  { unfold getSurface, collector_getSurface. fold k. now rewrite Hs1, lookup_insert_eq. }
  assert (Hex : existsb (String.eqb k) (surfaceIds_ st1) = true).
  { rewrite Hi1. now apply existsb_eqb_In. }
  unfold removeSurface. rewrite bind_unfold, H1. cbv beta iota.
  rewrite bind_get, Hg1. cbn [snd]. rewrite (Hid s1 Hx1 Hc1).
  unfold collector_removeSurface. rewrite !bind_modify. cbn [surfaceIds_ set_surfaces].
  rewrite Hex. unfold ret.
  eexists _, _. split; [reflexivity|].
  assert (Hdel : surfaces (set_surfaces (delete k (surfaces st1)) st1) = delete k (surfaces st)).
  { simpl. rewrite Hs1. apply delete_insert_eq. }
  assert (Hnone : surfaces (set_surfaces (delete k (surfaces st1)) st1) !! k = None).
  { rewrite Hdel. apply lookup_delete_eq. }
  assert (Hp : hasComponentPrefix_ E k = true) by apply getSurfaceElementId_prefixed.
  split; [exact Hdel|]. split; [exact Hi1|].
  split; [now apply getSurface_prefixed_None|].
  split.
  - apply (getSurfaces_throws E _ k); [simpl; now rewrite Hi1 | exact Hnone].
  - intros fuel l. apply renderSurfacesContent_stale. now apply getSurface_prefixed_None.
Qed.

(** The surface [s] of the component [c] is taken out. *)
Lemma removeSurface_leaves_key_witness :
  exists removed st',
    removeSurface bareEnv "s" (withSurface false) = Ok removed st' /\
    surfaces st' = delete "c-s" (surfaces (withSurface false)) /\
    surfaceIds_ st' = ["c-s"] /\
    getSurfaces bareEnv st' = Throw TypeError st'.
Proof.
  destruct (removeSurface_leaves_key bareEnv "s" freshSurface (withSurface false)
              eq_refl eq_refl eq_refl (or_introl eq_refl))
    as (removed & st' & H & Hs & Hi & _ & Ht & _).
  exists removed, st'. auto.
Defined.

(** X11. [removeSurface] on an id that is not registered finds nothing to
    delete and still files the element id under [surfaceIds_]: from then on
    the component holds a key without a record, and [getSurfaces] ends in a
    [TypeError]. *)
Theorem removeSurface_unregistered (E : Env) (id : string) (st : state) :
  getSurface E st id = None ->
  exists st',
    removeSurface E id st = Ok None st' /\
    surfaces st' = surfaces st /\
    In (getSurfaceElementId_ E id None) (surfaceIds_ st') /\
    getSurfaces E st' = Throw TypeError st'.
Proof.
  intros Hg. destruct (getSurface_None E st id Hg) as [Hk _].
  set (k := getSurfaceElementId_ E id None) in *.
  unfold removeSurface, getSurfaceElement. rewrite bind_assoc, bind_get, Hg, bind_ret.
  rewrite bind_get, Hg. fold k.
  unfold collector_removeSurface. rewrite !bind_modify. unfold ret.
  eexists. split; [reflexivity|].
  assert (Hs : delete k (surfaces st) = surfaces st) by now apply delete_id.
  assert (Hin : In k (surfaceIds_
                        (if existsb (String.eqb k) (surfaceIds_ st)
                         then set_surfaces (delete k (surfaces st)) st
                         else set_surfaceIds (surfaceIds_ st ++ [k])
                                (set_surfaces (delete k (surfaces st)) st)))).
  { destruct (existsb (String.eqb k) (surfaceIds_ st)) eqn:Hex.
    - simpl. now apply existsb_eqb_In.
    - simpl. apply in_or_app. right. now left. }
  cbn [surfaceIds_ set_surfaces] in *.
  destruct (existsb (String.eqb k) (surfaceIds_ st)) eqn:Hex.
  - split; [exact Hs|]. split; [exact Hin|].
    apply (getSurfaces_throws E _ k); [exact Hin | simpl; now rewrite Hs].
  - split; [exact Hs|]. split; [exact Hin|].
    apply (getSurfaces_throws E _ k); [exact Hin | simpl; now rewrite Hs].
Qed.

(** A component without surfaces, asked to take out [ghost]. *)
Lemma removeSurface_unregistered_witness :
  exists st',
    removeSurface bareEnv "ghost" constructed = Ok None st' /\
    surfaceIds_ st' = ["c-ghost"] /\
    getSurfaces bareEnv constructed = Ok ∅ constructed /\
    getSurfaces bareEnv st' = Throw TypeError st'.
Proof.
  destruct (removeSurface_unregistered bareEnv "ghost" constructed eq_refl)
    as (st' & H & _ & _ & Ht).
  exists st'. split; [exact H|]. split; [|split; [reflexivity | exact Ht]].
  vm_compute in H. injection H as <-. reflexivity.
Defined.

(** ** Registration and the index of render attributes *)




(** A configuration without a component is registered whatever the state. *)
Lemma addSurface_plain (E : Env) (id : string) (cfg : surface) (st : state) :
  whenTruthy (componentName cfg) = None ->
  exists st',
    addSurface E id (Some cfg) st = Ok tt st' /\
    surfaces st' = <[getSurfaceElementId_ E id (Some (set_cacheState Cache.NOT_INITIALIZED cfg))
                     := set_cacheState Cache.NOT_INITIALIZED cfg]> (surfaces st).
Proof.
  intros Hc. unfold addSurface.
  set (config := set_cacheState Cache.NOT_INITIALIZED cfg).
  set (key := getSurfaceElementId_ E id (Some config)).
  rewrite bind_modify. unfold collector_addSurface. rewrite bind_modify.
  change (componentName config) with (componentName cfg). rewrite Hc, bind_ret.
  match goal with |- context [cacheSurfaceRenderAttrs_ E key ?st0] => set (st2 := st0) end.
  assert (Hk : surfaces st2 = <[key := config]> (surfaces st)).
  { subst st2. simpl. destruct (existsb _ _); reflexivity. }
  destruct (getSurface_registered E st2 key config) as [ks Hg].
  { rewrite Hk. apply lookup_insert_eq. }
  destruct (cacheSurfaceRenderAttrs_total E key st2 (ex_intro _ ks Hg)) as (st' & H1 & H2).
  exists st'. split; [exact H1 | now rewrite H2].
Qed.

Lemma getSurface_found_either (E : Env) (st : state) (id key : string) (s : surface) :
  surfaces st !! key = Some s ->
  key = id \/ key = getSurfaceElementId_ E id None ->
  is_Some (getSurface E st id).
Proof.
  intros Hk Hkey. unfold getSurface, collector_getSurface.
  destruct (surfaces st !! getSurfaceElementId_ E id None) eqn:H1; [eauto|].
  destruct Hkey as [->| ->]; [rewrite Hk; eauto | congruence].
Qed.

(** The key under which a placeholder registers its surface. *)
Lemma placeholder_key (E : Env) (id : string) :
  let key := getSurfaceElementId_ E id
               (Some (mkSurface Cache.NOT_INITIALIZED (Some id) None Undefined [] false None)) in
  key = id \/ key = getSurfaceElementId_ E id None.
Proof.
  unfold getSurfaceElementId_. simpl.
  destruct (String.eqb id EmptyString) eqn:He; [right; reflexivity | left; reflexivity].
Qed.

(** [createPlaceholderSurface_] returns: either the surface is there and
    the registry stays, or a record without a component is added. *)
Lemma createPlaceholderSurface_cases (E : Env) (oid parent : option string) (st : state) :
  exists id st',
    createPlaceholderSurface_ E oid parent st = Ok id st' /\
    (forall i, oid = Some i -> id = i) /\
    ((is_Some (getSurface E st id) /\ surfaces st' = surfaces st /\
      (is_Some oid -> st' = st)) \/
     (getSurface E st id = None /\
      exists key,
        (key = id \/ key = getSurfaceElementId_ E id None) /\
        surfaces st' = <[key := mkSurface Cache.NOT_INITIALIZED (Some id) None Undefined
                                          [] false None]> (surfaces st))).
Proof.
  assert (Hrest : forall id st0,
             surfaces st0 = surfaces st ->
             exists st',
               (st1 <- get ;;
                match getSurface E st1 id with
                | Some _ => ret tt
                | None =>
                    addSurface E id
                      (Some (mkSurface 0 (Some id) None Undefined [] false None))
                end ;;;
                ret id) st0 = Ok id st' /\
               ((is_Some (getSurface E st id) /\ surfaces st' = surfaces st /\ st' = st0) \/
                (getSurface E st id = None /\
                 exists key,
                   (key = id \/ key = getSurfaceElementId_ E id None) /\
                   surfaces st' = <[key := mkSurface Cache.NOT_INITIALIZED (Some id) None
                                                     Undefined [] false None]> (surfaces st)))).
  { intros id st0 Hs. rewrite bind_get, (getSurface_ext E st st0 id Hs).
    destruct (getSurface E st id) as [ks|] eqn:Hg.
    - rewrite bind_ret. exists st0. split; [reflexivity|]. left. eauto.
    - destruct (addSurface_plain E id (mkSurface 0 (Some id) None Undefined [] false None) st0
                  eq_refl) as (st' & Ha & Hs').
      exists st'. rewrite bind_unfold, Ha. split; [reflexivity|]. right.
      split; [reflexivity|]. eexists. split; [apply placeholder_key|].
      rewrite Hs', Hs. reflexivity. }
  unfold createPlaceholderSurface_. destruct oid as [i|].
  - rewrite bind_ret. destruct (Hrest i st eq_refl) as (st' & H & Hc).
    exists i, st'. split; [exact H|]. split; [intros ? [=]; congruence|].
    destruct Hc as [(H1 & H2 & H3)|Hc]; [left; auto | right; exact Hc].
  - unfold generateSurfaceElementId_.
    set (p := match whenTruthy parent with Some p => p | None => env_id E end).
    rewrite bind_assoc, bind_get, bind_assoc, bind_modify, bind_ret.
    set (id := p ++ "-s" ++ decimal _).
    set (st0 := set_generatedIdCount _ st).
    destruct (Hrest id st0 eq_refl) as (st' & H & Hc).
    exists id, st'. split; [exact H|]. split; [discriminate|].
    destruct Hc as [(H1 & H2 & H3)|Hc]; [left | right; exact Hc].
    split; [exact H1|]. split; [exact H2|]. intros [? [=]].
Qed.

(** X13. [createPlaceholderSurface_] always returns, with the id it was
    given if it was given one; the surface of that id is registered
    afterwards; and a surface that was registered already is left as it
    is. *)
Theorem createPlaceholderSurface_registers (E : Env) (oid parent : option string) (st : state) :
  exists id st',
    createPlaceholderSurface_ E oid parent st = Ok id st' /\
    (forall i, oid = Some i -> id = i) /\
    is_Some (getSurface E st' id) /\
    (is_Some oid -> is_Some (getSurface E st id) -> st' = st) /\
    sameKinds st st'.
Proof.
  destruct (createPlaceholderSurface_cases E oid parent st) as (id & st' & H & Hid & Hc).
  exists id, st'. split; [exact H|]. split; [exact Hid|].
  destruct Hc as [(H1 & H2 & H3)|(Hnone & key & Hkey & Hs)].
  - split; [now rewrite (getSurface_ext E st st' id H2)|]. split; [auto|].
    intros k s Hk. exists s. now rewrite H2.
  - split; [|split].
    + eapply (getSurface_found_either E st' id key); [|exact Hkey].
      rewrite Hs. apply lookup_insert_eq.
    + intros _ [ks Hks]. congruence.
    + intros k s Hk. exists s. split; [|reflexivity]. rewrite Hs.
      rewrite lookup_insert_ne; [exact Hk|]. intros <-.
      apply getSurface_None in Hnone as [Hn1 Hn2]. destruct Hkey as [->| ->]; congruence.
Qed.

(** ** Generated ids *)





(** ** Placeholders of surfaces without content *)

Lemma truthyS_placeholder (id : string) :
  truthyS (componentName (mkSurface Cache.NOT_INITIALIZED (Some id) None Undefined
                                    [] false None)) = false.
Proof. reflexivity. Qed.

(** Where no surface has content and none holds a component, expanding a
    placeholder ends in a [TypeError]: the markup of the surface is asked
    for content that is not there. *)
Lemma expandPlaceholder_without_content (E : Env)
      (expand : jsval -> option string -> M jsval) (owner oid : option string) (st : state) :
  (forall surfaceId surfaceElementId,
      isDefAndNotNull (env_getSurfaceContent E surfaceId surfaceElementId) = false) ->
  (forall k r, surfaces st !! k = Some r -> truthyS (componentName r) = false) ->
  exists st', expandPlaceholder E expand owner oid st = Throw TypeError st'.
Proof.
  intros Hcontent Hplain.
  destruct (createPlaceholderSurface_cases E oid owner st) as (id & st1 & Hc & _ & Hcases).
  assert (Hplain1 : forall k r, surfaces st1 !! k = Some r -> truthyS (componentName r) = false).
  { destruct Hcases as [(_ & Hs & _)|(_ & key & _ & Hs)]; rewrite Hs.
    - exact Hplain.
    - intros k r. destruct (decide (key = k)) as [<-|Hne].
      + rewrite lookup_insert_eq. intros [= <-]. reflexivity.
      + rewrite lookup_insert_ne by exact Hne. apply Hplain. }
  assert (Hreg : is_Some (getSurface E st1 id)).
  { destruct Hcases as [(Hsome & Hs & _)|(_ & key & Hkey & Hs)].
    - now rewrite (getSurface_ext E st st1 id Hs).
    - eapply (getSurface_found_either E st1 id key); [|exact Hkey].
      rewrite Hs. apply lookup_insert_eq. }
  destruct Hreg as [[k r] Hg].
  pose proof (Hplain1 k r (getSurface_lookup E st1 id k r Hg)) as Hr.
  unfold expandPlaceholder. mstep Hc.
  mstep (theSurface_found E id st1 (k, r) Hg). cbn [fst].
  unfold writeSurface. rewrite bind_modify.
  set (st2 := set_surfaces (alter (set_handled true) k (surfaces st1)) st1).
  assert (Hg2 : theSurface E id st2 = Ok (k, set_handled true r) st2).
  { apply theSurface_found. unfold st2. rewrite getSurface_alter, Hg.
    now rewrite decide_True by reflexivity. }
  unfold getSurfaceContent_ at 1. rewrite bind_assoc. mstep Hg2. cbn [snd].
  change (componentName (set_handled true r)) with (componentName r). rewrite Hr, bind_ret.
  unfold getSurfaceHtml. rewrite bind_assoc. mstep Hg2. cbn [snd].
  change (componentName (set_handled true r)) with (componentName r). rewrite Hr.
  unfold getNonComponentSurfaceHtml, wrapContentIfNecessary. rewrite !bind_assoc.
  specialize (Hcontent (getSurfaceId_ E id (set_handled true r)) id).
  destruct (env_getSurfaceContent E _ id); try discriminate;
    exists st2; reflexivity.
Qed.

Lemma replaceTokens_first_throws (f : option string -> M string) (l : list segment)
      (st : state) :
  (exists raw id, In (Tok raw id) l) ->
  (forall id, exists st', f id st = Throw TypeError st') ->
  exists st', replaceTokens f l st = Throw TypeError st'.
Proof.
  intros Hin Hf. induction l as [|[c|raw0 id0] l IH].
  - destruct Hin as (? & ? & []).
  - destruct IH as [st' IH].
    { destruct Hin as (raw & id & [Hd|Hin]); [discriminate | eauto]. }
    exists st'. cbn [replaceTokens]. now rewrite bind_unfold, IH.
  - destruct (Hf id0) as [st' H0]. exists st'. cbn [replaceTokens].
    now rewrite bind_unfold, H0.
Qed.

Lemma tokens_scan (s : string) :
  tokens s <> [] -> exists raw id, In (Tok raw id) (scan s).
Proof.
  unfold tokens. induction (scan s) as [|[c|raw id] l IH]; simpl.
  - congruence.
  - intros H. destruct (IH H) as (raw & id & Hin). eauto.
  - intros _. eauto.
Qed.

(** X15. On a component whose surfaces have no content, as with the
    [getSurfaceContent] of [Component] itself, and hold no components,
    expanding any content with a placeholder in it ends in a [TypeError]:
    content that is missing is skipped by [renderSurfaceContent], not by the
    expansion. *)
Theorem expansion_without_content (E : Env) (fuel : nat) (s : string)
        (owner : option string) (st : state) :
  (forall surfaceId surfaceElementId,
      isDefAndNotNull (env_getSurfaceContent E surfaceId surfaceElementId) = false) ->
  (forall k r, surfaces st !! k = Some r -> truthyS (componentName r) = false) ->
  tokens s <> [] ->
  exists st', replaceSurfacePlaceholders_ E (S fuel) (Str s) owner st = Throw TypeError st'.
Proof.
  intros Hcontent Hplain Htok.
  destruct (replaceTokens_first_throws
              (fun id => expandPlaceholder E (replaceSurfacePlaceholders_ E fuel) owner id)
              (scan s) st (tokens_scan s Htok)) as [st' H].
  { intros id. now apply expandPlaceholder_without_content. }
  exists st'. cbn [replaceSurfacePlaceholders_]. now rewrite bind_unfold, H.
Qed.

(** The content of the component holds the placeholder of [header], and
    [getSurfaceContent] gives nothing. *)
Lemma expansion_without_content_witness :
  exists st',
    replaceSurfacePlaceholders_ bareEnv 1 (Str "<p>%%%%~s-header~%%%%</p>") None constructed
    = Throw TypeError st'.
Proof.
  apply (expansion_without_content bareEnv 0 "<p>%%%%~s-header~%%%%</p>" None constructed).
  - reflexivity.
  - intros k r H. discriminate.
  - vm_compute. discriminate.
Defined.

(** ** The surfaces of the component *)

(** What [getSurfaces] has put together after some keys. *)
Lemma getSurfaces_loop_Ok (E : Env) (keys : list string) (acc m : gmap string surface)
      (st st' : state) :
  getSurfaces_loop E keys acc st = Ok m st' ->
  st' = st /\
  (forall key, In key keys ->
               exists s, surfaces st !! key = Some s /\ is_Some (m !! getSurfaceId_ E key s)) /\
  (forall sid, is_Some (acc !! sid) -> is_Some (m !! sid)) /\
  (forall sid s, m !! sid = Some s ->
                 acc !! sid = Some s \/
                 exists key, In key keys /\ surfaces st !! key = Some s /\
                             getSurfaceId_ E key s = sid).
Proof.
  revert acc. induction keys as [|a keys IH]; intros acc; cbn [getSurfaces_loop].
  - intros H. apply ret_Ok in H as [-> ->]. split; [reflexivity|].
    split; [intros ? []|]. split; auto.
  - rewrite bind_get. unfold collector_getSurface.
    destruct (surfaces st !! a) as [s|] eqn:Ha; [|discriminate].
    intros H. destruct (IH _ H) as (-> & P1 & P2 & P3).
    split; [reflexivity|]. split; [|split].
    + intros key [<-|Hin]; [|now apply P1].
      exists s. split; [exact Ha|]. apply P2. rewrite lookup_insert_eq. eauto.
    + intros sid Hs. apply P2. destruct (decide (getSurfaceId_ E a s = sid)) as [<-|Hne].
      * rewrite lookup_insert_eq. eauto.
      * now rewrite lookup_insert_ne.
    + intros sid s0 H0. destruct (P3 sid s0 H0) as [Hacc|(key & Hin & Hk & Hid)].
      * destruct (decide (getSurfaceId_ E a s = sid)) as [<-|Hne].
        -- rewrite lookup_insert_eq in Hacc. injection Hacc as <-.
           right. exists a. split; [now left | auto].
        -- rewrite lookup_insert_ne in Hacc by exact Hne. now left.
      * right. exists key. split; [now right | auto].
Qed.

Lemma keys_registered_dec (st : state) (keys : list string) :
  (exists key, In key keys /\ surfaces st !! key = None) \/
  (forall key, In key keys -> is_Some (surfaces st !! key)).
Proof.
  induction keys as [|a keys [(key & Hin & Hnone)|IH]].
  - right. intros key [].
  - left. exists key. split; [now right | exact Hnone].
  - destruct (surfaces st !! a) as [s|] eqn:Ha.
    + right. intros key [<-|Hin]; [rewrite Ha; eauto | now apply IH].
    + left. exists a. split; [now left | exact Ha].
Qed.

(** X17. [getSurfaces] either gives every surface of the component, each
    under its surface id and each entry a record of the registry, leaving
    the component as it is, or ends in a [TypeError]; and it ends in a
    [TypeError] exactly when a key of [surfaceIds_] has no record. *)
Theorem getSurfaces_complete (E : Env) (st : state) :
  (getSurfaces E st = Throw TypeError st <->
   exists key, In key (surfaceIds_ st) /\ surfaces st !! key = None) /\
  ((forall key, In key (surfaceIds_ st) -> is_Some (surfaces st !! key)) ->
   exists m,
     getSurfaces E st = Ok m st /\
     (forall key, In key (surfaceIds_ st) ->
                  exists s, surfaces st !! key = Some s /\
                            is_Some (m !! getSurfaceId_ E key s)) /\
     (forall sid s, m !! sid = Some s ->
                    exists key, In key (surfaceIds_ st) /\ surfaces st !! key = Some s /\
                                getSurfaceId_ E key s = sid)).
Proof.
  assert (Htotal : forall keys acc,
             (forall key, In key keys -> is_Some (surfaces st !! key)) ->
             exists m, getSurfaces_loop E keys acc st = Ok m st).
  { induction keys as [|a keys IH]; intros acc Hall; cbn [getSurfaces_loop].
    - eauto.
    - rewrite bind_get. unfold collector_getSurface.
      destruct (Hall a (or_introl eq_refl)) as [s ->].
      apply IH. intros key Hin. apply Hall. now right. }
  split.
  - split.
    + intros Hthrow.
      destruct (keys_registered_dec st (surfaceIds_ st)) as [Hex|Hall]; [exact Hex|].
      exfalso. destruct (Htotal (surfaceIds_ st) ∅ Hall) as [m Hm].
      unfold getSurfaces in Hthrow. rewrite bind_get in Hthrow. congruence.
    + intros (key & Hin & Hnone). now apply (getSurfaces_throws E st key).
  - intros Hall. destruct (Htotal (surfaceIds_ st) ∅ Hall) as [m Hm].
    exists m. unfold getSurfaces. rewrite bind_get. split; [exact Hm|].
    destruct (getSurfaces_loop_Ok E _ _ _ _ _ Hm) as (_ & P1 & _ & P3).
    split; [exact P1|]. intros sid s H. destruct (P3 sid s H) as [Hacc|Hkey]; [|exact Hkey].
    rewrite lookup_empty in Hacc. discriminate.
Qed.

(** ** What the expansion collects *)

Lemma getSurface_sameKinds (E : Env) (st st' : state) (id : string) :
  sameKinds st st' -> is_Some (getSurface E st id) -> is_Some (getSurface E st' id).
Proof.
  intros Hk [[k s] Hg]. unfold getSurface, collector_getSurface in *.
  destruct (surfaces st !! getSurfaceElementId_ E id None) as [s1|] eqn:H1.
  - destruct (Hk _ _ H1) as (s' & -> & _). eauto.
  - destruct (surfaces st !! id) as [s2|] eqn:H2; [|discriminate].
    destruct (Hk _ _ H2) as (s' & -> & _).
    destruct (surfaces st' !! getSurfaceElementId_ E id None); eauto.
Qed.

Section CollectsRegistered.

Variable E : Env.

Lemma collectsRegistered_quiet (st st' : state) :
  sameKinds st st' -> collectedSurfaces_ st' = collectedSurfaces_ st ->
  collectsRegistered E st st'.
Proof.
  intros Hk Hc. split; [exact Hk|]. exists []. rewrite app_nil_r. now split.
Qed.

Lemma collectsRegistered_refl (st : state) : collectsRegistered E st st.
Proof. apply collectsRegistered_quiet; [apply sameKinds_refl | reflexivity]. Qed.

Lemma collectsRegistered_trans (a b c : state) :
  collectsRegistered E a b -> collectsRegistered E b c -> collectsRegistered E a c.
Proof.
  intros (K1 & l1 & C1 & F1) (K2 & l2 & C2 & F2). split; [eapply sameKinds_trans; eassumption|].
  exists (l1 ++ l2)%list. split; [now rewrite C2, C1, app_assoc|].
  apply Forall_app. split; [|exact F2].
  eapply Forall_impl; [exact F1|]. intros d. now apply getSurface_sameKinds.
Qed.

Lemma collectsRegistered_push (st st' : state) (cacheContent content : jsval) (id : string) :
  collectsRegistered E st st' -> is_Some (getSurface E st' id) ->
  collectsRegistered E st
    (set_collected (collectedSurfaces_ st' ++ [mkCollected cacheContent content id]) st').
Proof.
  intros (K & l & C & F) Hreg. split; [exact K|].
  exists (l ++ [mkCollected cacheContent content id])%list. simpl.
  split; [now rewrite C, app_assoc|].
  apply Forall_app. split; [exact F|]. constructor; [exact Hreg | constructor].
Qed.

Lemma collectsRegistered_expandPlaceholder (expand : jsval -> option string -> M jsval)
      (owner oid : option string) :
  (forall c o, keeps (collectsRegistered E) (expand c o)) ->
  keeps (collectsRegistered E) (expandPlaceholder E expand owner oid).
Proof.
  intros Hx st x st' H. unfold expandPlaceholder in H.
  apply bind_Ok in H as (id & st1 & H1 & H).
  apply bind_Ok in H as (ks & st1' & Ht & H).
  pose proof (theSurface_Ok _ _ _ _ _ Ht) as [-> Hg].
  apply bind_Ok in H as (? & st2 & H2 & H). apply modify_Ok in H2.
  apply bind_Ok in H as (sc & st3 & H3 & H).
  apply bind_Ok in H as (html & st4 & H4 & H).
  apply bind_Ok in H as (expanded & st5 & H5 & H).
  apply bind_Ok in H as (? & st6 & H6 & H). apply modify_Ok in H6.
  apply ret_Ok in H as [_ ->]. subst st6.
  assert (R1 : collectsRegistered E st st1).
  { revert H1. apply keeps_createPlaceholderSurface_;
      first [ solve [intros; apply collectsRegistered_quiet; [frame | reflexivity]]
            | apply collectsRegistered_trans ]. }
  assert (R2 : collectsRegistered E st1 st2).
  { subst st2. apply collectsRegistered_quiet; [frame | reflexivity]. }
  assert (R3 : collectsRegistered E st2 st3).
  { revert H3. apply keeps_getSurfaceContent_;
      first [ solve [intros; apply collectsRegistered_quiet; [frame | reflexivity]]
            | apply collectsRegistered_trans ]. }
  assert (R4 : collectsRegistered E st3 st4).
  { revert H4. apply keeps_getSurfaceHtml.
    - apply collectsRegistered_refl.
    - apply collectsRegistered_trans. }
  assert (R5 : collectsRegistered E st4 st5) by exact (Hx _ _ _ _ _ H5).
  assert (R15 : collectsRegistered E st1 st5).
  { repeat (eapply collectsRegistered_trans; [eassumption|]). apply collectsRegistered_refl. }
  apply collectsRegistered_push.
  - eapply collectsRegistered_trans; eassumption.
  - apply (getSurface_sameKinds E st1 st5 id); [apply R15 | rewrite Hg; eauto].
Qed.

Lemma collectsRegistered_replaceSurfacePlaceholders_ (fuel : nat) (c : jsval)
      (owner : option string) :
  keeps (collectsRegistered E) (replaceSurfacePlaceholders_ E fuel c owner).
Proof.
  revert c owner; induction fuel as [|n IH]; intros c owner;
    destruct c; simpl;
    try (apply keeps_ret; apply collectsRegistered_refl).
  - apply keeps_bind; [apply collectsRegistered_trans | |
                       intros ?; apply keeps_ret; apply collectsRegistered_refl].
    apply keeps_replaceTokens;
      [apply collectsRegistered_refl | apply collectsRegistered_trans |].
    intros ? ? ? ? H. discriminate.
  - apply keeps_bind; [apply collectsRegistered_trans | |
                       intros ?; apply keeps_ret; apply collectsRegistered_refl].
    apply keeps_replaceTokens;
      [apply collectsRegistered_refl | apply collectsRegistered_trans |].
    intros ?. apply collectsRegistered_expandPlaceholder. exact IH.
Qed.

End CollectsRegistered.

(** X16. Whatever content is expanded, the expansion only appends to the
    collected list, every entry it appends names a surface that is
    registered when it returns, and the records there were stay with their
    kind: [updatePlaceholderSurface_] finds the surface of every entry. *)
Theorem collected_are_registered (E : Env) (fuel : nat) (content : jsval)
        (owner : option string) (st st' : state) (expanded : jsval) :
  replaceSurfacePlaceholders_ E fuel content owner st = Ok expanded st' ->
  exists l,
    collectedSurfaces_ st' = (collectedSurfaces_ st ++ l)%list /\
    Forall (fun d => exists ks, theSurface E (c_surfaceElementId d) st' = Ok ks st') l /\
    sameKinds st st'.
Proof.
  intros H. apply collectsRegistered_replaceSurfacePlaceholders_ in H as (K & l & C & F).
  exists l. split; [exact C|]. split; [|exact K].
  eapply Forall_impl; [exact F|]. intros d [ks Hks]. exists ks. now apply theSurface_found.
Qed.

(** The content of the component holds the placeholder of [header], whose
    content holds an anonymous one. *)
Lemma collected_are_registered_witness :
  let E := exampleEnv (Str "<p>%%%%~s-header~%%%%</p>")
                      (fun id => if String.eqb id "header" then Str "Hi %%%%~s~%%%%"
                                 else Str "there")
                      (fun _ => EmptyString) in
  exists expanded st',
    replaceSurfacePlaceholders_ E 3 (Str "<p>%%%%~s-header~%%%%</p>") None constructed
      = Ok expanded st' /\
    map c_surfaceElementId (collectedSurfaces_ st') = ["header-s1"; "header"] /\
    Forall (fun d => exists ks, theSurface E (c_surfaceElementId d) st' = Ok ks st')
           (collectedSurfaces_ st').
Proof.
  intros E.
  destruct (replaceSurfacePlaceholders_ E 3 (Str "<p>%%%%~s-header~%%%%</p>") None constructed)
    as [expanded st'| |] eqn:H; try (vm_compute in H; discriminate).
  destruct (collected_are_registered E 3 _ None constructed st' expanded H) as (l & C & F & _).
  exists expanded, st'. split; [reflexivity|]. split.
  - vm_compute in H. injection H as _ <-. reflexivity.
  - rewrite C. exact F.
Defined.

(** The component [c] with its surface [s]. *)
Lemma getSurfaces_complete_witness :
  exists m, getSurfaces bareEnv (withSurface false) = Ok m (withSurface false) /\
            m !! "s" = Some freshSurface.
Proof.
  destruct (getSurfaces_complete bareEnv (withSurface false)) as [_ H].
  destruct H as (m & Hm & _).
  - intros key [<-|[]]. vm_compute. eauto.
  - exists m. split; [exact Hm|]. vm_compute in Hm. injection Hm as <-. reflexivity.
Defined.

(** ** A component rendered by its parent *)

Lemma attach_first_empties (E : Env) (fuel : nat) (st st' : state) :
  attach E fuel st = Ok tt st' ->
  inDocument st = false -> wasRendered st = false ->
  collectedSurfaces_ st' = [].
Proof.
  intros H Hi Hw. unfold attach in H. rewrite bind_get, Hi, Hw in H. simpl in H.
  apply bind_Ok in H as (? & sa & Ha & H). apply modify_Ok in Ha.
  apply bind_Ok in H as (? & sb & Hb & H). apply modify_Ok in Hb.
  apply bind_Ok in H as (? & sc & Hc & H). apply modify_Ok in H.
  apply updatePlaceholderSurfaces_empties in Hc. subst st'. exact Hc.
Qed.

Lemma renderAsSubComponent_completes (E : Env) (fuel : nat) (st st' : state) :
  renderAsSubComponent E fuel st = Ok tt st' ->
  wasRendered st' = true /\ inDocument st' = true /\ decorating_ st' = decorating_ st /\
  (inDocument st = false -> wasRendered st = false -> collectedSurfaces_ st' = []).
Proof.
  unfold renderAsSubComponent. intros H.
  apply bind_Ok in H as (? & st1 & H1 & H).
  apply bind_Ok in H as (? & st2 & H2 & H). apply modify_Ok in H2.
  apply bind_Ok in H as ([] & st3 & H3 & H). apply modify_Ok in H.
  destruct (attachInlineListeners_sameFlags _ _ _ _ H1) as (Fd & Fi & Fw).
  pose proof (attach_inDocument _ _ _ _ H3) as (Hi & _ & Hd).
  subst st'. simpl. split; [reflexivity|]. split; [exact Hi|].
  split; [rewrite Hd; subst st2; simpl; exact Fd|].
  intros Hi0 Hw0. apply (attach_first_empties E fuel st2 st3 H3); subst st2; simpl; congruence.
Qed.

(** X18. [decorateAsSubComponent] has no guard: it never throws
    [ALREADY_RENDERED]. When it returns the component is rendered, in the
    document and out of decoration, and a component that was neither
    rendered nor in the document has consumed every surface collected for
    it. *)
Theorem decorateAsSubComponent_completes (E : Env) (fuel : nat) (st st' : state) :
  decorateAsSubComponent E fuel st = Ok tt st' ->
  wasRendered st' = true /\ inDocument st' = true /\ decorating_ st' = false /\
  (inDocument st = false -> wasRendered st = false -> collectedSurfaces_ st' = []) /\
  neverThrows ALREADY_RENDERED (decorateAsSubComponent E fuel).
Proof.
  intros H. unfold decorateAsSubComponent in H.
  apply bind_Ok in H as (? & st1 & H1 & H). apply modify_Ok in H1.
  apply bind_Ok in H as ([] & st2 & H2 & H). apply modify_Ok in H.
  apply renderAsSubComponent_completes in H2 as (Hw & Hi & _ & Hc).
  subst st' st1. simpl in *. repeat split; auto.
  unfold decorateAsSubComponent, renderAsSubComponent, attachInlineListeners_, syncAttrs_.
  repeat quiet_more.
Qed.

(** The nested component has expanded its content for its parent, which
    then decorates it. *)
Lemma decorateAsSubComponent_completes_witness :
  let E := exampleEnv (Str "<p>%%%%~s-header~%%%%</p>")
                      (fun _ => Str "Hi") (fun _ => EmptyString) in
  exists expanded st1 st',
    getElementExtendedContent E 3 constructed = Ok expanded st1 /\
    List.length (collectedSurfaces_ st1) = 1%nat /\
    decorateAsSubComponent E 3 st1 = Ok tt st' /\
    collectedSurfaces_ st' = [] /\ decorating_ st' = false.
Proof.
  intros E.
  destruct (getElementExtendedContent E 3 constructed) as [expanded st1| |] eqn:H1;
    try (vm_compute in H1; discriminate).
  destruct (decorateAsSubComponent E 3 st1) as [[] st'| |] eqn:H2;
    try (vm_compute in H1; injection H1 as _ <-; vm_compute in H2; discriminate).
  destruct (decorateAsSubComponent_completes E 3 st1 st' H2) as (_ & _ & Hd & Hc & _).
  exists expanded, st1, st'. split; [reflexivity|].
  assert (Hflags : inDocument st1 = false /\ wasRendered st1 = false /\
                   List.length (collectedSurfaces_ st1) = 1%nat).
  { vm_compute in H1. injection H1 as _ <-. repeat split; reflexivity. }
  destruct Hflags as (Hi & Hw & Hl).
  split; [exact Hl|]. split; [exact H2|]. split; [now apply Hc | exact Hd].
Defined.

(** ** Calls that fail *)

Section AllOutcomes.

Variable E : Env.

Local Abbreviation steady := (keepsAll sameModes).

Lemma sameModes_refl (st : state) : sameModes st st.
Proof. split; reflexivity. Qed.

Lemma sameModes_trans (a b c : state) : sameModes a b -> sameModes b c -> sameModes a c.
Proof. intros [H1 H2] [H3 H4]. split; congruence. Qed.

Lemma steady_ret {A} (a : A) : steady (ret a).
Proof. intros st. apply sameModes_refl. Qed.

Lemma steady_get : steady get.
Proof. intros st. apply sameModes_refl. Qed.

Lemma steady_throw {A} (e : error) : steady (@throw A e).
Proof. intros st. apply sameModes_refl. Qed.

Lemma steady_outOfFuel {A} : steady (@outOfFuel A).
Proof. intros st. exact I. Qed.

Lemma steady_modify (f : state -> state) :
  (forall st, sameModes st (f st)) -> steady (modify f).
Proof. intros Hf st. apply Hf. Qed.

Lemma steady_bind {A B} (m : M A) (k : A -> M B) :
  steady m -> (forall a, steady (k a)) -> steady (bind m k).
Proof.
  intros Hm Hk st. rewrite bind_unfold. specialize (Hm st).
  destruct (m st) as [a st1|e st1|]; [|exact Hm | exact I].
  specialize (Hk a st1). destruct (k a st1); try exact I;
    (eapply sameModes_trans; [exact Hm | exact Hk]).
Qed.

Lemma steady_when (c : bool) (m : M unit) : steady m -> steady (when c m).
Proof. intros Hm; destruct c; simpl; [exact Hm | apply steady_ret]. Qed.

Lemma steady_forEach {A} (f : A -> M unit) (l : list A) :
  (forall a, steady (f a)) -> steady (forEach f l).
Proof.
  intros Hf; induction l as [|a l IH]; simpl.
  - apply steady_ret.
  - apply steady_bind; [apply Hf | intros _; exact IH].
Qed.

Lemma steady_theSurface (id : string) : steady (theSurface E id).
Proof. intros st. unfold theSurface. destruct (getSurface E st id); apply sameModes_refl. Qed.

Lemma steady_readSurface (k : string) : steady (readSurface k).
Proof. intros st. unfold readSurface. destruct (surfaces st !! k); apply sameModes_refl. Qed.

Ltac modes :=
  intros; unfold sameModes; simpl;
  repeat match goal with |- context [if ?c then _ else _] => destruct c end;
  split; reflexivity.

Ltac steady_step :=
  lazymatch goal with
  | |- keepsAll _ (bind _ _) => apply steady_bind; [|intros ?]
  | |- keepsAll _ (ret _) => apply steady_ret
  | |- keepsAll _ get => apply steady_get
  | |- keepsAll _ (modify _) => apply steady_modify; modes
  | |- keepsAll _ (emit _) => apply steady_modify; modes
  | |- keepsAll _ (writeSurface _ _) => apply steady_modify; modes
  | |- keepsAll _ (collector_addSurface _ _) => apply steady_modify; modes
  | |- keepsAll _ (throw _) => apply steady_throw
  | |- keepsAll _ outOfFuel => apply steady_outOfFuel
  | |- keepsAll _ (when _ _) => apply steady_when
  | |- keepsAll _ (forEach _ _) => apply steady_forEach; intros ?
  | |- keepsAll _ (theSurface _ _) => apply steady_theSurface
  | |- keepsAll _ (readSurface _) => apply steady_readSurface
  | |- keepsAll _ (if ?c then _ else _) => destruct c
  | |- keepsAll _ (match ?x with _ => _ end) => destruct x
  end.

Lemma steady_addSurface (id : string) (c : option surface) : steady (addSurface E id c).
Proof.
  unfold addSurface, createSubComponent_, cacheSurfaceRenderAttrs_. repeat steady_step.
Qed.

Lemma steady_createPlaceholderSurface_ (id parent : option string) :
  steady (createPlaceholderSurface_ E id parent).
Proof.
  unfold createPlaceholderSurface_, generateSurfaceElementId_.
  repeat first [apply steady_addSurface | steady_step].
Qed.

Lemma steady_wrapContentIfNecessary (c : jsval) (id tag : string) :
  steady (wrapContentIfNecessary c id tag).
Proof. unfold wrapContentIfNecessary, checkHasElementTag_. repeat steady_step. Qed.

Lemma steady_getSurfaceHtml (id : string) (c : jsval) : steady (getSurfaceHtml E id c).
Proof.
  unfold getSurfaceHtml, getNonComponentSurfaceHtml.
  repeat first [apply steady_wrapContentIfNecessary | steady_step].
Qed.

Lemma steady_getSurfaceContent_ (id : string) : steady (getSurfaceContent_ E id).
Proof. unfold getSurfaceContent_. repeat steady_step. Qed.

Lemma steady_getSurfaceElement (id : string) : steady (getSurfaceElement E id).
Proof. unfold getSurfaceElement. repeat steady_step. Qed.

Lemma steady_replaceTokens (f : option string -> M string) (l : list segment) :
  (forall id, steady (f id)) -> steady (replaceTokens f l).
Proof.
  intros Hf. induction l as [|[c|raw id] l IH]; simpl.
  - apply steady_ret.
  - repeat steady_step. exact IH.
  - repeat steady_step; [apply Hf | exact IH].
Qed.

Lemma steady_replaceSurfacePlaceholders_ (fuel : nat) (c : jsval) (owner : option string) :
  steady (replaceSurfacePlaceholders_ E fuel c owner).
Proof.
  revert c owner; induction fuel as [|n IH]; intros c owner;
    destruct c; simpl; try apply steady_ret.
  - apply steady_bind; [|intros ?; apply steady_ret].
    apply steady_replaceTokens; intros ?; apply steady_outOfFuel.
  - apply steady_bind; [|intros ?; apply steady_ret].
    apply steady_replaceTokens; intros ?. unfold expandPlaceholder.
    repeat first [apply steady_createPlaceholderSurface_ | apply steady_getSurfaceContent_
                 | apply steady_getSurfaceHtml | apply IH | steady_step].
Qed.

Lemma steady_cacheSurfaceContent (id : string) (c : jsval) :
  steady (cacheSurfaceContent E id c).
Proof. unfold cacheSurfaceContent. repeat steady_step. Qed.

Lemma steady_renderSurfaceContent (fuel : nat) (id : string) (oc occ : jsval) :
  steady (renderSurfaceContent E fuel id oc occ).
Proof.
  revert id oc occ; induction fuel as [|n IH]; intros id oc occ; simpl;
    unfold renderComponentSurface_, cacheAndCompare, replaceSurfaceContent_,
      renderPlaceholderSurfaceContents_, checkHasElementTag_;
    repeat first [apply steady_getSurfaceContent_ | apply steady_getSurfaceElement
                 | apply steady_cacheSurfaceContent | apply steady_replaceSurfacePlaceholders_
                 | apply steady_createPlaceholderSurface_ | apply IH | steady_step].
Qed.

Lemma steady_updatePlaceholderSurfaces_ (fuel : nat) :
  steady (updatePlaceholderSurfaces_ E fuel).
Proof.
  unfold updatePlaceholderSurfaces_. apply steady_bind; [apply steady_get|]. intros st.
  apply steady_bind; [|intros ?; apply steady_modify; modes].
  induction (List.length (collectedSurfaces_ st)) as [|j IH]; simpl.
  - apply steady_ret.
  - unfold updatePlaceholderSurface_.
    repeat first [apply steady_renderSurfaceContent | apply steady_getSurfaceElement
                 | apply steady_cacheSurfaceContent | apply IH | steady_step].
Qed.

Lemma steady_renderSurfacesContent_ (fuel : nat) (l : list string) :
  steady (renderSurfacesContent_ E fuel l).
Proof.
  unfold renderSurfacesContent_.
  repeat first [apply steady_renderSurfaceContent | apply steady_updatePlaceholderSurfaces_
               | steady_step].
Qed.

Lemma steady_getElementContent_ : steady (getElementContent_ E).
Proof. unfold getElementContent_. repeat steady_step. Qed.

Lemma steady_attach (fuel : nat) : steady (attach E fuel).
Proof.
  unfold attach. repeat first [apply steady_updatePlaceholderSurfaces_ | steady_step].
Qed.

Lemma steady_emit (e : event) : steady (emit e).
Proof. steady_step. Qed.

Lemma steady_attachInlineListeners_ : steady (attachInlineListeners_ E).
Proof.
  unfold attachInlineListeners_. repeat first [apply steady_getElementContent_ | steady_step].
Qed.

Lemma steady_syncAttrs_ : steady syncAttrs_.
Proof. unfold syncAttrs_. steady_step. Qed.

Lemma steady_renderInternal (fuel : nat) : steady (renderInternal E fuel).
Proof.
  unfold renderInternal, getElementExtendedContent.
  repeat first [apply steady_getElementContent_ | apply steady_replaceSurfacePlaceholders_
               | steady_step].
Qed.

Lemma steady_expandElementContent (fuel : nat) :
  steady (c <- getElementContent_ E ;; replaceSurfacePlaceholders_ E fuel c None).
Proof.
  repeat first [apply steady_getElementContent_ | apply steady_replaceSurfacePlaceholders_
               | steady_step].
Qed.

Lemma steady_renderOwnSurfaces (fuel : nat) :
  steady (st <- get ;; renderSurfacesContent_ E fuel (surfaceIds_ st)).
Proof. repeat first [apply steady_renderSurfacesContent_ | steady_step]. Qed.

(** One call of a sequence: either the failure is in it, or the sequence
    goes on from a state in the same modes. *)
Lemma steady_advance {A B} (m : M A) (k : A -> M B) (st0 st st' : state) (e : error) :
  steady m -> sameModes st0 st -> bind m k st = Throw e st' ->
  sameModes st0 st' \/ exists a st1, sameModes st0 st1 /\ k a st1 = Throw e st'.
Proof.
  intros Hm H0 H. rewrite bind_unfold in H. specialize (Hm st).
  destruct (m st) as [a s1|e1 s1|]; [| |discriminate].
  - right. exists a, s1. split; [eapply sameModes_trans; eassumption | exact H].
  - left. inversion H; subst. eapply sameModes_trans; eassumption.
Qed.

End AllOutcomes.

(** X19. A [decorate] that fails past its guard leaves the component in
    decoration: [decorating_] is set before the work starts and reset only
    after it has returned, and nothing in between resets it. Whether the
    component counts as rendered is as before. *)
Theorem decorate_failure_stays_decorating (E : Env) (fuel : nat) (st st' : state) (e : error) :
  decorate E fuel st = Throw e st' ->
  inDocument st = false ->
  decorating_ st' = true /\ wasRendered st' = wasRendered st.
Proof.
  intros H Hi. unfold decorate in H. rewrite bind_get, Hi, bind_modify in H.
  assert (Hend : forall s, sameModes (set_decorating true st) s ->
                           decorating_ s = true /\ wasRendered s = wasRendered st).
  { intros s [Hd Hw]. split; [exact Hd | exact Hw]. }
  pose proof (sameModes_refl (set_decorating true st)) as S.
  destruct (steady_advance _ _ _ _ _ _ (steady_emit _) S H) as [Hs|(? & s1 & S1 & H1)];
    [now apply Hend|].
  destruct (steady_advance _ _ _ _ _ _ (steady_expandElementContent E fuel) S1 H1)
    as [Hs|(? & s2 & S2 & H2)]; [now apply Hend|].
  destruct (steady_advance _ _ _ _ _ _ (steady_renderOwnSurfaces E fuel) S2 H2)
    as [Hs|(? & s3 & S3 & H3)]; [now apply Hend|].
  destruct (steady_advance _ _ _ _ _ _ (steady_attachInlineListeners_ E) S3 H3)
    as [Hs|(? & s4 & S4 & H4)]; [now apply Hend|].
  destruct (steady_advance _ _ _ _ _ _ steady_syncAttrs_ S4 H4)
    as [Hs|(? & s5 & S5 & H5)]; [now apply Hend|].
  destruct (steady_advance _ _ _ _ _ _ (steady_attach E fuel) S5 H5)
    as [Hs|(? & s6 & S6 & H6)]; [now apply Hend|].
  discriminate.
Qed.

(** The content of the component holds the placeholder of [header], and
    [getSurfaceContent] gives nothing: [decorate] fails, and the component
    stays in decoration. *)
Lemma decorate_failure_stays_decorating_witness :
  let E := exampleEnv (Str "<p>%%%%~s-header~%%%%</p>") (fun _ => Undefined)
                      (fun _ => EmptyString) in
  exists st', decorate E 3 constructed = Throw TypeError st' /\ decorating_ st' = true.
Proof.
  intros E.
  destruct (decorate E 3 constructed) as [|e st'|] eqn:H; try (vm_compute in H; discriminate).
  destruct (decorate_failure_stays_decorating E 3 constructed st' e H eq_refl) as [Hd _].
  exists st'. split; [|exact Hd].
  vm_compute in H. injection H as <- _. reflexivity.
Defined.

(** X20. A [render] that fails, for whatever reason, leaves the component
    not rendered and its decoration flag alone: the call can be repeated,
    and will not be turned down as a second rendering. *)
Theorem render_failure_not_rendered (E : Env) (fuel : nat) (st st' : state) (e : error) :
  render E fuel st = Throw e st' ->
  wasRendered st' = wasRendered st /\ decorating_ st' = decorating_ st /\
  (wasRendered st = false ->
   forall st2, render E fuel st' <> Throw ALREADY_RENDERED st2).
Proof.
  intros H.
  assert (Hm : sameModes st st').
  { unfold render in H. rewrite bind_get in H.
    destruct (wasRendered st); [inversion H; apply sameModes_refl|].
    pose proof (sameModes_refl st) as S.
    destruct (steady_advance _ _ _ _ _ _ (steady_renderInternal E fuel) S H)
      as [Hs|(? & s1 & S1 & H1)]; [exact Hs|].
    destruct (steady_advance _ _ _ _ _ _ (steady_renderOwnSurfaces E fuel) S1 H1)
      as [Hs|(? & s2 & S2 & H2)]; [exact Hs|].
    destruct (steady_advance _ _ _ _ _ _ (steady_attachInlineListeners_ E) S2 H2)
      as [Hs|(? & s3 & S3 & H3)]; [exact Hs|].
    destruct (steady_advance _ _ _ _ _ _ steady_syncAttrs_ S3 H3)
      as [Hs|(? & s4 & S4 & H4)]; [exact Hs|].
    destruct (steady_advance _ _ _ _ _ _ (steady_attach E fuel) S4 H4)
      as [Hs|(? & s5 & S5 & H5)]; [exact Hs|].
    discriminate. }
  destruct Hm as [Hd Hw]. split; [exact Hw|]. split; [exact Hd|].
  intros Hw0 st2 H2. unfold render in H2. rewrite bind_get, Hw, Hw0 in H2.
  exact (quiet_render_body E fuel st' st2 H2).
Qed.

Lemma render_failure_not_rendered_witness :
  let E := exampleEnv (Str "<p>%%%%~s-header~%%%%</p>") (fun _ => Undefined)
                      (fun _ => EmptyString) in
  exists st', render E 3 constructed = Throw TypeError st' /\ wasRendered st' = false.
Proof.
  intros E.
  destruct (render E 3 constructed) as [|e st'|] eqn:H; try (vm_compute in H; discriminate).
  destruct (render_failure_not_rendered E 3 constructed st' e H) as [Hw _].
  exists st'. split; [|exact Hw].
  vm_compute in H. injection H as <- _. reflexivity.
Defined.

(** ** A surface rendered through its placeholder *)

Lemma plainSurface_ext (E : Env) (id k : string) (st st' : state) (s : surface) :
  surfaces st' = surfaces st -> plainSurface E id k st s -> plainSurface E id k st' s.
Proof. intros Hs [Hg Hc]. split; [now rewrite (getSurface_ext E st st' id Hs) | exact Hc]. Qed.

(** X22. Outside decoration, [updatePlaceholderSurface_] stores for a
    surface without a component the cache state of the content collected
    for it. Rendering the surface again with that content is then a hit:
    no listeners are attached and nothing is replaced, only the surfaces
    named in the content are rendered, and content without placeholders
    leaves the component exactly as it is. *)
Theorem placeholder_surface_cached (E : Env) (fuel : nat) (id k : string) (s : surface)
        (st : state) (content : string) (expanded opt_content : jsval) :
  plainSurface E id k st s ->
  decorating_ st = false ->
  resolveContent E id s opt_content = Str content ->
  exists st1,
    updatePlaceholderSurface_ E fuel (mkCollected (Str content) expanded id) st = Ok tt st1 /\
    storedCacheState E st1 id = Some (computeSurfaceCacheState_ E (Str content)) /\
    renderSurfaceContent E fuel id opt_content Undefined st1
    = renderPlaceholderSurfaceContents_ E (nestedRender E fuel) (Str content) id st1 /\
    (tokens content = [] ->
     renderSurfaceContent E fuel id opt_content Undefined st1 = Ok tt st1).
Proof.
  intros Hp Hd Hres. pose proof Hp as [Hg Hc].
  pose proof (getSurface_lookup _ _ _ _ _ Hg) as Hk.
  set (s1 := set_cacheState (computeSurfaceCacheState_ E (Str content)) (set_element None s)).
  set (st1 := set_trace (trace st ++ [AttachListeners (Str content) (Some id)])
                        (putSurface k s1 st)).
  assert (Hp1 : plainSurface E id k st1 s1).
  { apply (plainSurface_ext E id k (putSurface k s1 st)); [reflexivity|].
    apply (plain_put E id k st s s1 Hp). reflexivity. }
  assert (Hupd : updatePlaceholderSurface_ E fuel (mkCollected (Str content) expanded id) st
                 = Ok tt st1).
  { unfold updatePlaceholderSurface_. cbn [c_surfaceElementId c_cacheContent c_content].
    mstep (theSurface_found _ _ _ _ Hg). cbn [fst snd]. rewrite Hc. simpl when.
    rewrite bind_ret, bind_get, Hd. cbn [orb].
    mstep (writeSurface_put k (set_element None) s st Hk).
    assert (Hpa : plainSurface E id k (putSurface k (set_element None s) st) (set_element None s)).
    { apply (plain_put E id k st s _ Hp). reflexivity. }
    mstep (cacheSurfaceContent_plain E id k _ _ (Str content) Hpa).
    rewrite putSurface_put. reflexivity. }
  exists st1. split; [exact Hupd|]. split.
  { unfold storedCacheState. destruct Hp1 as [-> _]. reflexivity. }
  assert (Hres1 : resolveContent E id s1 opt_content = Str content).
  { rewrite <- Hres. reflexivity. }
  assert (Hd1 : decorating_ st1 = false) by exact Hd.
  assert (Hrender : renderSurfaceContent E fuel id opt_content Undefined st1
                    = renderPlaceholderSurfaceContents_ E (nestedRender E fuel)
                        (Str content) id st1).
  { rewrite (renderSurfaceContent_plain E id k fuel st1 s1 opt_content Undefined Hp1).
    cbv zeta. rewrite Hres1. cbn [isDefAndNotNull].
    mstep (cacheAndCompare_rendering E id k st1 s1 (Str content) Undefined Hp1 Hd1).
    cbn [jsor truthy]. fold (computeSurfaceCacheState_ E (Str content)).
    change (cacheState s1) with (computeSurfaceCacheState_ E (Str content)).
    rewrite compareCacheStates_same_string.
    change (set_cacheState (computeSurfaceCacheState_ E (Str content)) s1) with s1.
    rewrite (putSurface_same k s1 st1) by (apply (getSurface_lookup E st1 id), Hp1).
    rewrite bind_get, Hd1. simpl when. now rewrite bind_ret. }
  split; [exact Hrender|].
  intros Htok. rewrite Hrender. unfold renderPlaceholderSurfaceContents_. now rewrite Htok.
Qed.

(** The surface [s] was rendered with the content [x] through its
    placeholder; rendering it with [x] again changes nothing. *)
Lemma placeholder_surface_cached_witness :
  exists st1,
    updatePlaceholderSurface_ staleEnv 1 (mkCollected (Str "x") (Str (surfaceMarkup "x")) "c-s")
                              (withSurface false) = Ok tt st1 /\
    renderSurfaceContent staleEnv 1 "c-s" (Str "x") Undefined st1 = Ok tt st1.
Proof.
  destruct (placeholder_surface_cached staleEnv 1 "c-s" "c-s" freshSurface (withSurface false)
              "x" (Str (surfaceMarkup "x")) (Str "x"))
    as (st1 & H1 & _ & _ & H2).
  - split; reflexivity.
  - reflexivity.
  - reflexivity.
  - exists st1. split; [exact H1 | apply H2; reflexivity].
Defined.

(** ** A placeholder built for a surface *)

(** X21. [buildPlaceholder] with data for a surface without a component
    registers the surface under the id it is given and returns a
    placeholder for that id: when the placeholder is expanded,
    [createPlaceholderSurface_] finds a surface and registers nothing. The
    surface it finds is the one just registered unless another record sits
    under the prefixed id. *)
Theorem buildPlaceholder_registers (E : Env) (id : string) (data : surface)
        (owner : option string) (st : state) :
  id <> EmptyString ->
  forallb idChar (list_ascii_of_string id) = true ->
  whenTruthy (componentName data) = None ->
  let config := set_cacheState Cache.NOT_INITIALIZED (set_surfaceElementId (Some id) data) in
  exists text st1,
    buildPlaceholder E (Some id) (Some data) st = Ok text st1 /\
    tokens text = [Some id] /\
    surfaces st1 !! id = Some config /\
    createPlaceholderSurface_ E (Some id) owner st1 = Ok id st1 /\
    (surfaces st !! getSurfaceElementId_ E id None = None \/ hasComponentPrefix_ E id = true ->
     getSurface E st1 id = Some (id, config)).
Proof.
  intros Hne Hall Hc config.
  pose proof Hne as Hneb. apply String.eqb_neq in Hneb.
  destruct (addSurface_plain E id (set_surfaceElementId (Some id) data) st Hc)
    as (st1 & Ha & Hs).
  fold config in Hs.
  assert (Hkey : getSurfaceElementId_ E id (Some config) = id).
  { unfold getSurfaceElementId_. simpl. now rewrite Hneb. }
  rewrite Hkey in Hs.
  assert (Hk : surfaces st1 !! id = Some config) by (rewrite Hs; apply lookup_insert_eq).
  exists (placeholderText (Some id)), st1. split; [|split; [|split; [exact Hk|split]]].
  - unfold buildPlaceholder. simpl whenTruthy. rewrite Hneb.
    rewrite bind_unfold, Ha. reflexivity.
  - unfold tokens, placeholderText. simpl whenTruthy. rewrite Hneb.
    rewrite (scan_token ("%%%%~s" ++ ("-" ++ id) ++ "~%%%%") (Some id)); [reflexivity|].
    rewrite append_assoc. now apply TokenWithId.
  - unfold createPlaceholderSurface_. rewrite bind_ret, bind_get.
    destruct (getSurface_found_either E st1 id id config Hk (or_introl eq_refl)) as [ks ->].
    reflexivity.
  - intros Hfree. unfold getSurface, collector_getSurface.
    destruct Hfree as [Hnone|Hp].
    + destruct (decide (getSurfaceElementId_ E id None = id)) as [->|Hd].
      * now rewrite Hk.
      * rewrite Hs at 1. rewrite lookup_insert_ne by congruence. now rewrite Hnone, Hk.
    + assert (He : getSurfaceElementId_ E id None = id).
      { unfold getSurfaceElementId_. simpl. now rewrite Hp. }
      now rewrite He, Hk.
Qed.

(** A placeholder is built for the surface [header] of a component just
    constructed. *)
Lemma buildPlaceholder_registers_witness :
  exists st1,
    buildPlaceholder bareEnv (Some "header") (Some freshSurface) constructed
      = Ok "%%%%~s-header~%%%%" st1 /\
    createPlaceholderSurface_ bareEnv (Some "header") None st1 = Ok "header" st1.
Proof.
  destruct (buildPlaceholder_registers bareEnv "header" freshSurface None constructed)
    as (text & st1 & H1 & _ & _ & H2 & _).
  - discriminate.
  - reflexivity.
  - reflexivity.
  - exists st1. split; [|exact H2].
    rewrite H1. f_equal. vm_compute in H1. injection H1 as <- _. reflexivity.
Defined.
